(** * UniConnect: messaging, presence and token revocation

    A shallow embedding of the real-time core of [backend/server.mjs]
    (presence map, token blacklist, auth middleware, chat and message
    routes) together with the sibling handlers of
    [backend/controllers/messageController.js],
    [backend/routes/messageRoutes.js] and [backend/routes/chatRoutes.js].

    Conventions.
    - JavaScript [Map]/[Set] objects are [gmap]/[gset]; in-place mutation
      is state passing.
    - [Date.now()] is an integer number of milliseconds, passed in as [now].
    - Identifiers (user ids, chat ids, socket ids, tokens) are strings;
      user and chat ids range over strings that Mongoose accepts as
      ObjectIds.
    - A database call that can reject (connection loss, cast or schema
      validation error) takes a boolean telling whether it resolves. *)

From stdpp Require Import gmap strings list fin_maps sorting.
From Stdlib Require Import ZArith Lia Ascii.
From Stdlib Require String.

#[local] Set Warnings "-clear-no-such-hyp".

Local Open Scope string_scope.
Local Open Scope list_scope.

(** ** Presence map: [onlineUsers], [addPresence], [removePresence] *)

Module Presence.

(** [const onlineUsers = new Map()]: userId -> Set of socket ids. *)
Definition emptyOnline : gmap string (gset string) := ∅.

(** [addPresence]: create the user's set when the key is missing, then add
    the socket id to it. *)
Definition addPresence (userId socketId : string)
    (onlineUsers : gmap string (gset string)) : gmap string (gset string) :=
  match onlineUsers !! userId with
  | None => <[userId := {[socketId]}]> onlineUsers
  | Some set => <[userId := {[socketId]} ∪ set]> onlineUsers
  end.

(** [removePresence]: nothing when the key is missing; otherwise delete the
    socket id from the set and, when the set has become empty, delete the
    key. *)
Definition removePresence (userId socketId : string)
    (onlineUsers : gmap string (gset string)) : gmap string (gset string) :=
  match onlineUsers !! userId with
  | None => onlineUsers
  | Some set =>
      let set' := set ∖ {[socketId]} in
      if decide (size set' = 0%nat) then delete userId onlineUsers
      else <[userId := set']> onlineUsers
  end.

(** [onlineUsers.has(id)], the test behind [[...onlineUsers.keys()]]. *)
Definition isOnline (onlineUsers : gmap string (gset string)) (userId : string) : bool :=
  bool_decide (is_Some (onlineUsers !! userId)).

(** The session set stored for a user (empty when there is no key). *)
Definition sessions (onlineUsers : gmap string (gset string)) (userId : string)
    : gset string :=
  default ∅ (onlineUsers !! userId).

(** The two events of [io.on("connection")]: the connection itself and the
    socket's ["disconnect"]. *)
Inductive event : Type :=
  | Connect (userId socketId : string)
  | Disconnect (userId socketId : string).

Definition step (onlineUsers : gmap string (gset string)) (e : event)
    : gmap string (gset string) :=
  match e with
  | Connect u s => addPresence u s onlineUsers
  | Disconnect u s => removePresence u s onlineUsers
  end.

Definition run (evs : list event) (onlineUsers : gmap string (gset string))
    : gmap string (gset string) :=
  foldl step onlineUsers evs.

(** No key of the map holds an empty set. *)
Definition no_empty_set (onlineUsers : gmap string (gset string)) : Prop :=
  ∀ u S, onlineUsers !! u = Some S → S ≠ ∅.

Definition is_disconnect (u s : string) (e : event) : bool :=
  match e with
  | Disconnect u' s' => bool_decide (u' = u) && bool_decide (s' = s)
  | Connect _ _ => false
  end.

(** Some connect of [u] in the trace is followed by no disconnect of the
    same user and socket. *)
Fixpoint outstanding (u : string) (evs : list event) : bool :=
  match evs with
  | [] => false
  | Connect u' s :: rest =>
      (bool_decide (u' = u) && negb (existsb (is_disconnect u s) rest))
      || outstanding u rest
  | Disconnect _ _ :: rest => outstanding u rest
  end.

(** Whether socket [s] of user [u] is registered after [evs], starting from
    registration status [b]: the last event about the pair decides. *)
Fixpoint live (u s : string) (evs : list event) (b : bool) : bool :=
  match evs with
  | [] => b
  | Connect u' s' :: rest =>
      live u s rest (if decide (u' = u ∧ s' = s) then true else b)
  | Disconnect u' s' :: rest =>
      live u s rest (if decide (u' = u ∧ s' = s) then false else b)
  end.

(** The number of connects and of disconnects of user [u] in a trace. *)
Definition of_user (u : string) (e : event) : bool :=
  match e with
  | Connect u' _ | Disconnect u' _ => bool_decide (u' = u)
  end.

Definition is_connect (e : event) : bool :=
  match e with Connect _ _ => true | Disconnect _ _ => false end.

Definition connects (u : string) (evs : list event) : nat :=
  length (List.filter (λ e, of_user u e && is_connect e) evs).

Definition disconnects (u : string) (evs : list event) : nat :=
  length (List.filter (λ e, of_user u e && negb (is_connect e)) evs).

(** The traces the socket server produces: a socket id is used for one
    connection, and a socket disconnects once, after it connected. *)
Inductive socket_trace : list event → Prop :=
  | trace_nil : socket_trace []
  | trace_connect evs u s :
      socket_trace evs → Connect u s ∉ evs →
      socket_trace (evs ++ [Connect u s])
  | trace_disconnect evs u s :
      socket_trace evs → Connect u s ∈ evs → Disconnect u s ∉ evs →
      socket_trace (evs ++ [Disconnect u s]).

End Presence.

(** ** Strings: the JavaScript operations the handlers use

    A [string] is a sequence of code units below 256. *)

Module Js.

(** White space of [String.prototype.trim] and of the regular expression
    class [\s], restricted to code units below 256: TAB, LF, VT, FF, CR,
    SPACE and NO-BREAK SPACE. *)
Definition isWhiteSpace (c : ascii) : bool :=
  let n := nat_of_ascii c in
  (n =? 9)%nat || (n =? 10)%nat || (n =? 11)%nat || (n =? 12)%nat
  || (n =? 13)%nat || (n =? 32)%nat || (n =? 160)%nat.

Fixpoint trimStartL (l : list ascii) : list ascii :=
  match l with
  | c :: l' => if isWhiteSpace c then trimStartL l' else l
  | [] => []
  end.

Definition trimEndL (l : list ascii) : list ascii := rev (trimStartL (rev l)).

(** [s.trim()] *)
Definition trim (s : string) : string :=
  String.string_of_list_ascii (trimEndL (trimStartL (String.list_ascii_of_string s))).

(** Truthiness of a string-valued field that may be absent: absent and the
    empty string are falsy. *)
Definition truthy (v : option string) : bool :=
  match v with
  | Some s => negb (String.eqb s "")
  | None => false
  end.

Definition toLower (c : ascii) : ascii :=
  let n := nat_of_ascii c in
  if ((65 <=? n) && (n <=? 90))%nat then ascii_of_nat (n + 32) else c.

(** [header.startsWith("Bearer ") ? header.slice(7) : null] *)
Definition bearerSlice (header : string) : option string :=
  if String.prefix "Bearer " header
  then Some (String.substring 7 (String.length header - 7) header)
  else None.

(** [raw.replace(/^Bearer\s+/i, "")]: a leading "bearer" in any letter case
    followed by at least one white space character is removed together
    with all the white space after it. *)
Definition stripBearer (raw : string) : string :=
  let l := String.list_ascii_of_string raw in
  let word := map toLower (take 6 l) in
  let rest := drop 6 l in
  match rest with
  | c :: _ =>
      if bool_decide (word = String.list_ascii_of_string "bearer") && isWhiteSpace c
      then String.string_of_list_ascii (trimStartL rest)
      else raw
  | [] => raw
  end.

End Js.

(** ** Token blacklist: [inMemoryBlacklist], [blacklistToken], the sweep *)

Module Revocation.

(** A command handed to the optional Redis client. *)
Inductive redis_cmd : Type :=
  | Setex (key : string) (seconds : Z) (value : string).

(** [inMemoryBlacklist] (token -> expiry timestamp) and the commands sent
    to Redis so far. *)
Record blacklist : Type := {
  inMemoryBlacklist : gmap string Z;
  redisSent : list redis_cmd
}.

Definition emptyBlacklist : blacklist :=
  {| inMemoryBlacklist := ∅; redisSent := [] |}.

(** [blacklistToken(token, ttlSeconds)] at time [now]. *)
Definition blacklistToken (useRedis : bool) (now : Z) (token : string)
    (ttlSeconds : Z) (bl : blacklist) : blacklist :=
  if String.eqb token "" then bl
  else if useRedis then
    {| inMemoryBlacklist := inMemoryBlacklist bl;
       redisSent := redisSent bl ++ [Setex ("blacklist:" +:+ token) ttlSeconds "1"] |}
  else
    let exp := (now + ttlSeconds * 1000)%Z in
    {| inMemoryBlacklist := <[token := exp]> (inMemoryBlacklist bl);
       redisSent := redisSent bl |}.

(** The default of [ttlSeconds], also the value [/logout] passes. *)
Definition defaultTtlSeconds : Z := (24 * 60 * 60)%Z.

(** The [setInterval] callback run at time [now]: every entry with
    [exp <= now] is deleted. *)
Definition sweep (now : Z) (bl : blacklist) : blacklist :=
  {| inMemoryBlacklist := filter (λ kv, (now < kv.2)%Z) (inMemoryBlacklist bl);
     redisSent := redisSent bl |}.

(** [inMemoryBlacklist.has(token)]: the test made by [auth], by the socket
    middleware and by [/uploads/:filename]. *)
Definition isRevoked (token : string) (bl : blacklist) : bool :=
  bool_decide (is_Some (inMemoryBlacklist bl !! token)).

(** The expiry stored for a token. *)
Definition revokedUntil (token : string) (bl : blacklist) : option Z :=
  inMemoryBlacklist bl !! token.

(** The check as the specification words it: an entry whose [revokedUntil]
    lies before the time of the check counts as absent. *)
Definition isRevoked_checktime (now : Z) (token : string) (bl : blacklist) : bool :=
  match inMemoryBlacklist bl !! token with
  | Some exp => bool_decide (now ≤ exp)%Z
  | None => false
  end.

(** What can happen to the blacklist between two checks. *)
Inductive op : Type :=
  | BlacklistToken (now : Z) (token : string) (ttlSeconds : Z)
  | Sweep (now : Z).

Definition apply_op (bl : blacklist) (o : op) : blacklist :=
  match o with
  | BlacklistToken now token ttl => blacklistToken false now token ttl bl
  | Sweep now => sweep now bl
  end.

Definition run (ops : list op) (bl : blacklist) : blacklist := foldl apply_op bl ops.

(** [o] does not end the revocation of [token] that lasts until [exp]: it
    is a sweep before [exp] or a call about another token. *)
Definition keeps (token : string) (exp : Z) (o : op) : Prop :=
  match o with
  | BlacklistToken _ token' _ => token' ≠ token
  | Sweep now => (now < exp)%Z
  end.

End Revocation.

(** ** Authentication: [extractTokenFromRequest], [auth], the socket middleware *)

Module Auth.

(** The decoded JWT payload. *)
Record payload : Type := { _id : string; collegeId : string }.

(** Reply of [redisClient.get]: the promise rejects, or resolves to [null]
    or to a string. *)
Inductive redis_reply : Type :=
  | RedisError
  | RedisNil
  | RedisValue (v : string).

(** What the middlewares read besides the request: the [useRedis] flag, the
    Redis server as seen through [get], and [jwt.verify(token, JWT_SECRET)]
    at the time of the request ([None] when it throws: malformed token, bad
    signature or expired). *)
Record env : Type := {
  useRedis : bool;
  redisGet : string → redis_reply;
  jwtVerify : string → option payload
}.

(** The part of a request [extractTokenFromRequest] reads: the
    [authorization] header ([""] when absent) and the decoded capture of
    the [accessToken] cookie, when the cookie header has one. *)
Record request : Type := {
  authorization : string;
  accessTokenCookie : option string
}.

Definition extractTokenFromRequest (req : request) : option string :=
  let tokenFromHeader := Js.bearerSlice (authorization req) in
  if Js.truthy tokenFromHeader then tokenFromHeader
  else accessTokenCookie req.

(** Outcome of a middleware: the error message it rejects with, or the
    payload it attaches before calling [next()]. *)
Inductive outcome : Type :=
  | Reject (message : string)
  | Next (user : payload).

(** The blacklist lookup shared by both middlewares; [None] when the
    awaited Redis call throws. *)
Definition blacklisted (e : env) (bl : Revocation.blacklist) (token : string)
    : option bool :=
  if useRedis e then
    match redisGet e ("blacklist:" +:+ token) with
    | RedisError => None
    | RedisNil => Some false
    | RedisValue v => Some (Js.truthy (Some v))
    end
  else Some (Revocation.isRevoked token bl).

(** The REST middleware [auth]; every rejection has status 401. *)
Definition auth (e : env) (bl : Revocation.blacklist) (req : request) : outcome :=
  let token := extractTokenFromRequest req in
  if negb (Js.truthy token) then Reject "Missing token"
  else
    let token := default "" token in
    match blacklisted e bl token with
    | None => Reject "Invalid or expired token"
    | Some true => Reject "Token revoked"
    | Some false =>
        match jwtVerify e token with
        | Some payload => Next payload
        | None => Reject "Invalid or expired token"
        end
    end.

(** The handshake of a socket: [handshake.auth?.token] and
    [handshake.headers?.authorization]. *)
Record handshake : Type := {
  authToken : option string;
  headerAuthorization : option string
}.

(** [raw.replace(/^Bearer\s+/i, "")] for
    [raw = handshake.auth?.token || handshake.headers?.authorization || ""]. *)
Definition handshakeToken (h : handshake) : string :=
  let raw :=
    if Js.truthy (authToken h) then default "" (authToken h)
    else if Js.truthy (headerAuthorization h) then default "" (headerAuthorization h)
    else "" in
  Js.stripBearer raw.

(** The socket middleware [io.use]. *)
Definition socketAuth (e : env) (bl : Revocation.blacklist) (h : handshake) : outcome :=
  let token := handshakeToken h in
  if String.eqb token "" then Reject "No token provided"
  else
    match blacklisted e bl token with
    | None => Reject "Invalid token"
    | Some true => Reject "Token revoked"
    | Some false =>
        match jwtVerify e token with
        | Some payload => Next payload
        | None => Reject "Invalid token"
        end
    end.

(** The order the specification words: verification first, the blacklist
    only for a token that verified. *)
Definition auth_verify_first (e : env) (bl : Revocation.blacklist) (req : request)
    : outcome :=
  let token := extractTokenFromRequest req in
  if negb (Js.truthy token) then Reject "Missing token"
  else
    let token := default "" token in
    match jwtVerify e token with
    | None => Reject "Invalid or expired token"
    | Some payload =>
        match blacklisted e bl token with
        | None => Reject "Invalid or expired token"
        | Some true => Reject "Token revoked"
        | Some false => Next payload
        end
    end.

(** An environment without Redis in which no token verifies. *)
Definition envNothingVerifies : env :=
  {| useRedis := false; redisGet := λ _, RedisNil; jwtVerify := λ _, None |}.

End Auth.

(** ** Chats and messages: the store, the effects and the handlers *)

Module Messaging.

(** Modelled from the spec: [backend/models/Message.js] is not among the
    sources.  A message is [{messageId, chatId, senderId, receiverId, text,
    createdAt, seen}]; [seen] is false on creation and [createdAt] is the
    time of creation. *)
Record Message : Type := {
  mid : string;
  chatId : string;
  sender : string;
  receiver : string;
  text : string;
  createdAt : Z;
  seen : bool
}.

(** [backend/models/Chat.js]: participants, [lastMessage] and the
    [updatedAt] timestamp. *)
Record Chat : Type := {
  cid : string;
  participants : list string;
  lastMessage : string;
  updatedAt : Z
}.

(** The two collections, each in insertion order. *)
Record db : Type := {
  messages : list Message;
  chats : list Chat
}.

Definition emptyDb : db := {| messages := []; chats := [] |}.

(** Payload of an emitted event. *)
Inductive event_payload : Type :=
  | PMessage (m : Message)
  | PChatUpdated (chat lastMsg : string) (at_ : Z).

(** The effects of a handler, in the order it performs them. *)
Inductive effect : Type :=
  | MessageCreate (m : Message)
  | ChatFindByIdAndUpdate (chat lastMsg : string) (at_ : Z)
  | ChatCreate (c : Chat)
  | MessageUpdateManySeen (chat user : string)
  | IoEmit (room event : string) (p : event_payload).

(** The database together with everything emitted so far, as
    (room, event, payload), oldest first. *)
Record world : Type := {
  store : db;
  emitted : list (string * string * event_payload)
}.

Definition emptyWorld : world := {| store := emptyDb; emitted := [] |}.

Definition setLastMessage (chat lastMsg : string) (at_ : Z) (c : Chat) : Chat :=
  if String.eqb (cid c) chat
  then {| cid := cid c; participants := participants c;
          lastMessage := lastMsg; updatedAt := at_ |}
  else c.

(** The filter [{chatId, receiver: user, seen: false}] of [updateMany]. *)
Definition unseenFor (chat user : string) (m : Message) : bool :=
  String.eqb (chatId m) chat && String.eqb (receiver m) user && negb (seen m).

(** [{ $set: { seen: true } }] on the messages the filter selects. *)
Definition setSeen (chat user : string) (m : Message) : Message :=
  if unseenFor chat user m
  then {| mid := mid m; chatId := chatId m; sender := sender m;
          receiver := receiver m; text := text m; createdAt := createdAt m;
          seen := true |}
  else m.

Definition apply_effect (w : world) (e : effect) : world :=
  match e with
  | MessageCreate m =>
      {| store := {| messages := messages (store w) ++ [m]; chats := chats (store w) |};
         emitted := emitted w |}
  | ChatFindByIdAndUpdate chat lastMsg at_ =>
      {| store := {| messages := messages (store w);
                     chats := map (setLastMessage chat lastMsg at_) (chats (store w)) |};
         emitted := emitted w |}
  | ChatCreate c =>
      {| store := {| messages := messages (store w); chats := chats (store w) ++ [c] |};
         emitted := emitted w |}
  | MessageUpdateManySeen chat user =>
      {| store := {| messages := map (setSeen chat user) (messages (store w));
                     chats := chats (store w) |};
         emitted := emitted w |}
  | IoEmit room event p =>
      {| store := store w; emitted := emitted w ++ [(room, event, p)] |}
  end.

Definition exec (w : world) (effs : list effect) : world := foldl apply_effect w effs.

(** The message text an event payload carries. *)
Definition payloadText (p : event_payload) : string :=
  match p with
  | PMessage m => text m
  | PChatUpdated _ lastMsg _ => lastMsg
  end.

(** The message text an effect writes or sends, if any. *)
Definition effectText (e : effect) : option string :=
  match e with
  | MessageCreate m => Some (text m)
  | ChatFindByIdAndUpdate _ lastMsg _ => Some lastMsg
  | IoEmit _ _ p => Some (payloadText p)
  | ChatCreate _ | MessageUpdateManySeen _ _ => None
  end.

(** A JSON response: status and value, or status and error message. *)
Inductive response (A : Type) : Type :=
  | Success (status : nat) (value : A)
  | Failure (status : nat) (message : string).
Arguments Success {A} status value.
Arguments Failure {A} status message.

(** *** [POST /messages] of [server.mjs]

    [me] is [req.user._id]; the body fields are JSON strings or absent;
    [newId] and [now] are the id and timestamp [Message.create] assigns,
    [now'] is the [new Date()] of the chat update. *)
Record send_body : Type := {
  b_chatId : option string;
  b_receiver : option string;
  b_text : option string
}.

Definition postMessages (me : string) (body : send_body) (newId : string)
    (now now' : Z) (createOk updateOk : bool) : response Message * list effect :=
  if negb (Js.truthy (b_chatId body)) || negb (Js.truthy (b_receiver body))
     || negb (Js.truthy (b_text body))
     || negb (Js.truthy (Some (Js.trim (default "" (b_text body)))))
  then (Failure 400 "chatId, receiver, text required", [])
  else
    let chat := default "" (b_chatId body) in
    let to := default "" (b_receiver body) in
    let sanitized := Js.trim (default "" (b_text body)) in
    let msg := {| mid := newId; chatId := chat; sender := me; receiver := to;
                  text := sanitized; createdAt := now; seen := false |} in
    if negb createOk then (Failure 500 "Internal server error", [])
    else if negb updateOk then
      (Failure 500 "Internal server error", [MessageCreate msg])
    else
      (Success 201 msg,
       [ MessageCreate msg;
         ChatFindByIdAndUpdate chat sanitized now';
         IoEmit to "message:new" (PMessage msg);
         IoEmit me "message:new" (PMessage msg);
         IoEmit to "chat:updated" (PChatUpdated chat sanitized now);
         IoEmit me "chat:updated" (PChatUpdated chat sanitized now) ]).

(** *** [sendMessage] of [controllers/messageController.js] *)
Definition controllerSendMessage (me : string) (body : send_body) (newId : string)
    (now now' : Z) (createOk updateOk : bool) : response Message * list effect :=
  if negb (Js.truthy (b_chatId body)) || negb (Js.truthy (b_receiver body))
     || negb (Js.truthy (b_text body))
  then (Failure 400 "chatId, receiver, and text are required", [])
  else
    let chat := default "" (b_chatId body) in
    let to := default "" (b_receiver body) in
    let txt := default "" (b_text body) in
    let message := {| mid := newId; chatId := chat; sender := me; receiver := to;
                      text := txt; createdAt := now; seen := false |} in
    if negb createOk then (Failure 500 "Internal server error", [])
    else if negb updateOk then
      (Failure 500 "Internal server error", [MessageCreate message])
    else
      (Success 201 message,
       [ MessageCreate message;
         ChatFindByIdAndUpdate chat txt now';
         IoEmit to "newMessage" (PMessage message) ]).

(** *** [router.post("/:chatId")] of [routes/messageRoutes.js]

    [isValid] is [mongoose.Types.ObjectId.isValid]; [senderId] and
    [receiverId] come from the body. *)
Definition routerPostMessage (isValid : string → bool) (chat : string)
    (senderId receiverId : string) (txt : option string) (newId : string)
    (now now' : Z) (saveOk updateOk : bool) : response Message * list effect :=
  if negb (isValid chat) || negb (isValid senderId)
  then (Failure 400 "Invalid chat ID or sender ID.", [])
  else if negb (Js.truthy txt) || String.eqb (Js.trim (default "" txt)) ""
  then (Failure 400 "Message text cannot be empty.", [])
  else
    let newMessage := {| mid := newId; chatId := chat; sender := senderId;
                         receiver := receiverId; text := default "" txt;
                         createdAt := now; seen := false |} in
    if negb saveOk then (Failure 500 "Server error", [])
    else if negb updateOk then (Failure 500 "Server error", [MessageCreate newMessage])
    else
      (Success 201 newMessage,
       [ MessageCreate newMessage;
         ChatFindByIdAndUpdate chat (default "" txt) now' ]).

(** *** [GET /messages/:chatId] *)

(** The [limit] query parameter as [Number(limit)] sees it. *)
Inductive query_limit : Type :=
  | LimitAbsent
  | LimitNaN
  | LimitNum (n : Z).

(** [Math.min(Number(limit) || 50, 100)], with the default [limit = 50]. *)
Definition effectiveLimit (limit : query_limit) : Z :=
  let n := match limit with
           | LimitAbsent => 50%Z
           | LimitNaN => 50%Z
           | LimitNum n => if (n =? 0)%Z then 50%Z else n
           end in
  Z.min n 100.

(** MongoDB's cursor limit: [0] is no limit, a negative number limits to
    its absolute value. *)
Definition cursorLimit {A} (k : Z) (l : list A) : list A :=
  if (k =? 0)%Z then l else take (Z.to_nat (Z.abs k)) l.

(** Insertion into a list sorted by [createdAt] descending, before the
    first element that is not newer. *)
Fixpoint insertDesc (x : Message) (l : list Message) : list Message :=
  match l with
  | [] => [x]
  | y :: l' =>
      if (createdAt y <=? createdAt x)%Z then x :: y :: l'
      else y :: insertDesc x l'
  end.

(** [.sort({ createdAt: -1 })]; messages of equal [createdAt] keep their
    insertion order. *)
Fixpoint sortDesc (l : list Message) : list Message :=
  match l with
  | [] => []
  | x :: l' => insertDesc x (sortDesc l')
  end.

(** The [before] query parameter: absent or empty, not a date, or the
    date [new Date(before)]. *)
Inductive query_before : Type :=
  | BeforeAbsent
  | BeforeInvalid
  | BeforeDate (t : Z).

(** The query [q]: [{ chatId }], with [createdAt: { $lt: ... }] when
    [before] is given. *)
Definition matchesQuery (chat : string) (before : query_before) (m : Message) : bool :=
  String.eqb (chatId m) chat
  && match before with
     | BeforeDate t => (createdAt m <? t)%Z
     | _ => true
     end.

Definition getMessages (chat : string) (before : query_before) (limit : query_limit)
    (findOk : bool) (d : db) : response (list Message) :=
  match before with
  | BeforeInvalid => Failure 500 "Internal server error"
  | _ =>
      if negb findOk then Failure 500 "Internal server error"
      else
        let found :=
          cursorLimit (effectiveLimit limit)
            (sortDesc (List.filter (matchesQuery chat before) (messages d))) in
        Success 200 (rev found)
  end.

(** The messages of a successful response ([[]] otherwise). *)
Definition page (r : response (list Message)) : list Message :=
  match r with
  | Success _ ms => ms
  | Failure _ _ => []
  end.

(** *** [PUT /messages/:chatId/seen] and [markAsSeen] of the controller

    Both run the same [updateMany] and answer with its [modifiedCount]. *)
Definition modifiedCount (chat user : string) (d : db) : nat :=
  length (List.filter (unseenFor chat user) (messages d)).

Definition putSeen (me chat : string) (updateOk : bool) (d : db)
    : response nat * list effect :=
  if negb updateOk then (Failure 500 "Internal server error", [])
  else (Success 200 (modifiedCount chat me d), [MessageUpdateManySeen chat me]).

Definition markAsSeen (me chat : string) (updateOk : bool) (d : db)
    : response nat * list effect :=
  if negb updateOk then (Failure 500 "Internal server error", [])
  else (Success 200 (modifiedCount chat me d), [MessageUpdateManySeen chat me]).

(** The number of positions at which the [seen] flag differs. *)
Definition changedCount (old new : list Message) : nat :=
  length (List.filter (λ p : Message * Message, negb (Bool.eqb (seen p.1) (seen p.2)))
            (zip old new)).

(** Equality of two messages in every field but [seen]. *)
Definition sameButSeen (m m' : Message) : Prop :=
  mid m' = mid m ∧ chatId m' = chatId m ∧ sender m' = sender m ∧
  receiver m' = receiver m ∧ text m' = text m ∧ createdAt m' = createdAt m.

(** *** [POST /chats/ensure] and [router.post("/")] of [routes/chatRoutes.js] *)

(** [{ participants: { $all: [a, b] } }] *)
Definition hasAll (a b : string) (c : Chat) : Prop :=
  a ∈ participants c ∧ b ∈ participants c.

#[global] Instance hasAll_dec a b c : Decision (hasAll a b c).
Proof. unfold hasAll. apply _. Defined.

(** [Chat.findOne(...)]: the first chat that matches. *)
Definition findOneChat (a b : string) (cs : list Chat) : option Chat :=
  snd <$> list_find (hasAll a b) cs.

Definition chatsEnsure (me : string) (withUserId : option string) (newId : string)
    (now : Z) (findOk createOk : bool) (d : db) : response Chat * list effect :=
  if negb (Js.truthy withUserId) then (Failure 400 "withUserId required", [])
  else
    let other := default "" withUserId in
    if negb findOk then (Failure 500 "Internal server error", [])
    else
      match findOneChat me other (chats d) with
      | Some chat => (Success 200 chat, [])
      | None =>
          if negb createOk then (Failure 500 "Internal server error", [])
          else
            let chat := {| cid := newId; participants := [me; other];
                           lastMessage := ""; updatedAt := now |} in
            (Success 200 chat, [ChatCreate chat])
      end.

Definition routerPostChat (userId1 userId2 : option string) (newId : string)
    (now : Z) (findOk saveOk : bool) (d : db) : response Chat * list effect :=
  if negb (Js.truthy userId1) || negb (Js.truthy userId2)
  then (Failure 400 "Both user IDs are required.", [])
  else
    let a := default "" userId1 in
    let b := default "" userId2 in
    if negb findOk then (Failure 500 "Server error", [])
    else
      match findOneChat a b (chats d) with
      | Some chat => (Success 200 chat, [])
      | None =>
          if negb saveOk then (Failure 500 "Server error", [])
          else
            let chat := {| cid := newId; participants := [a; b];
                           lastMessage := ""; updatedAt := now |} in
            (Success 200 chat, [ChatCreate chat])
      end.

(** Example data: a body whose text has white space at both ends. *)
Definition helloBody : send_body :=
  {| b_chatId := Some "64b7f0c2a1d3e4f5a6b7c8d1";
     b_receiver := Some "64b7f0c2a1d3e4f5a6b7c8d2";
     b_text := Some "  hello " |}.

Definition helloMessage : Message :=
  {| mid := "64b7f0c2a1d3e4f5a6b7c8d4"; chatId := "64b7f0c2a1d3e4f5a6b7c8d1";
     sender := "64b7f0c2a1d3e4f5a6b7c8d3"; receiver := "64b7f0c2a1d3e4f5a6b7c8d2";
     text := "hello"; createdAt := 1000; seen := false |}.

(** Example data: a store in which user [...d3] has a chat with user
    [...d2] only. *)
Definition oneChat : Chat :=
  {| cid := "64b7f0c2a1d3e4f5a6b7c8d1";
     participants := ["64b7f0c2a1d3e4f5a6b7c8d3"; "64b7f0c2a1d3e4f5a6b7c8d2"];
     lastMessage := ""; updatedAt := 500 |}.

(** Example data: three messages of one chat, the first two created in
    the same millisecond. *)
Definition tieMessage (id : string) (t : Z) : Message :=
  {| mid := id; chatId := "64b7f0c2a1d3e4f5a6b7c8d1";
     sender := "64b7f0c2a1d3e4f5a6b7c8d3"; receiver := "64b7f0c2a1d3e4f5a6b7c8d2";
     text := "hi"; createdAt := t; seen := false |}.

Definition tieDb : db :=
  {| messages := [ tieMessage "64b7f0c2a1d3e4f5a6b7c8e1" 1000;
                   tieMessage "64b7f0c2a1d3e4f5a6b7c8e2" 1000;
                   tieMessage "64b7f0c2a1d3e4f5a6b7c8e3" 2000 ];
     chats := [oneChat] |}.

(** Example data: four messages of one chat with distinct timestamps. *)
Definition historyDb : db :=
  {| messages := [ tieMessage "64b7f0c2a1d3e4f5a6b7c8e1" 1000;
                   tieMessage "64b7f0c2a1d3e4f5a6b7c8e2" 2000;
                   tieMessage "64b7f0c2a1d3e4f5a6b7c8e3" 3000;
                   tieMessage "64b7f0c2a1d3e4f5a6b7c8e4" 4000 ];
     chats := [oneChat] |}.

(** Ascending and descending order of [createdAt]. *)
Definition older_eq (a b : Message) : Prop := (createdAt a ≤ createdAt b)%Z.
Definition newer_eq (a b : Message) : Prop := (createdAt b ≤ createdAt a)%Z.

(** *** The requests that write to the store, and the states they reach *)
Inductive request : Type :=
  | ReqChatsEnsure (me : string) (withUserId : option string) (newId : string)
      (now : Z) (findOk createOk : bool)
  | ReqRouterPostChat (userId1 userId2 : option string) (newId : string)
      (now : Z) (findOk saveOk : bool)
  | ReqPostMessages (me : string) (body : send_body) (newId : string)
      (now now' : Z) (createOk updateOk : bool)
  | ReqControllerSendMessage (me : string) (body : send_body) (newId : string)
      (now now' : Z) (createOk updateOk : bool)
  | ReqRouterPostMessage (isValid : string → bool) (chat senderId receiverId : string)
      (txt : option string) (newId : string) (now now' : Z) (saveOk updateOk : bool)
  | ReqPutSeen (me chat : string) (updateOk : bool).

Definition effectsOf (r : request) (d : db) : list effect :=
  match r with
  | ReqChatsEnsure me w newId now f c => snd (chatsEnsure me w newId now f c d)
  | ReqRouterPostChat u1 u2 newId now f s => snd (routerPostChat u1 u2 newId now f s d)
  | ReqPostMessages me body newId now now' c u => snd (postMessages me body newId now now' c u)
  | ReqControllerSendMessage me body newId now now' c u =>
      snd (controllerSendMessage me body newId now now' c u)
  | ReqRouterPostMessage isValid chat s r txt newId now now' sv u =>
      snd (routerPostMessage isValid chat s r txt newId now now' sv u)
  | ReqPutSeen me chat ok => snd (putSeen me chat ok d)
  end.

Definition handle (w : world) (r : request) : world := exec w (effectsOf r (store w)).

Definition serve (rs : list request) (w : world) : world := foldl handle w rs.

(** The participants of [c] are [a] and [b], in either order. *)
Definition isPair (a b : string) (c : Chat) : Prop :=
  participants c = [a; b] ∨ participants c = [b; a].

(** Every chat has two participants and no earlier chat holds both of
    them. *)
Definition chats_wf (cs : list Chat) : Prop :=
  ∀ i c, cs !! i = Some c →
    ∃ x y, participants c = [x; y] ∧
      ∀ j c', (j < i)%nat → cs !! j = Some c' → ¬ hasAll x y c'.

End Messaging.

(** ** Sessions: [POST /logout] and the gate of [GET /uploads/:filename] *)

Module Session.

(** [POST /logout] at time [now]: the presented token, if any, is
    blacklisted for 24 hours.  The answer is always
    [{ success: true, message: "Logged out" }]. *)
Definition logout (useRedis : bool) (now : Z) (req : Auth.request)
    (bl : Revocation.blacklist) : Revocation.blacklist :=
  let token := Auth.extractTokenFromRequest req in
  if Js.truthy token
  then Revocation.blacklistToken useRedis now (default "" token) (24 * 60 * 60)%Z bl
  else bl.

(** [hay.includes(needle)] *)
Fixpoint includes (needle hay : string) : bool :=
  String.prefix needle hay
  || match hay with
     | EmptyString => false
     | String _ rest => includes needle rest
     end.

(** Outcome of [GET /uploads/:filename]: an error answer, or
    [res.sendFile] of the named file of the uploads directory. *)
Inductive upload_outcome : Type :=
  | UploadError (status : nat) (message : string)
  | SendFile (filename : string).

(** [GET /uploads/:filename].  [fileExists] is [fs.existsSync] on the
    uploads directory; a file name without separators is its own
    [path.basename]. *)
Definition serveUpload (allowPublicUploads : bool) (fileExists : string → bool)
    (e : Auth.env) (bl : Revocation.blacklist) (filename : string)
    (req : Auth.request) : upload_outcome :=
  if String.eqb filename "" then UploadError 400 "filename required"
  else if includes ".." filename || includes "/" filename || includes "\" filename
  then UploadError 400 "Invalid filename"
  else if negb (fileExists filename) then UploadError 404 "File not found"
  else if allowPublicUploads then SendFile filename
  else
    let token := Auth.extractTokenFromRequest req in
    if negb (Js.truthy token)
    then UploadError 401 "Authentication required to access uploads"
    else
      let token := default "" token in
      match Auth.blacklisted e bl token with
      | None => UploadError 401 "Invalid or expired token"
      | Some true => UploadError 401 "Token revoked"
      | Some false =>
          match Auth.jwtVerify e token with
          | Some _ => SendFile filename
          | None => UploadError 401 "Invalid or expired token"
          end
      end.

End Session.

(** ** Inbox: [GET /chats], [GET /chats/online] and the history readers of
    the controller and of the router *)

Module Inbox.
Import Messaging.

(** Insertion into a list of chats sorted by [updatedAt] descending. *)
Fixpoint insertChatDesc (x : Chat) (l : list Chat) : list Chat :=
  match l with
  | [] => [x]
  | y :: l' =>
      if (updatedAt y <=? updatedAt x)%Z then x :: y :: l'
      else y :: insertChatDesc x l'
  end.

(** [.sort({ updatedAt: -1 })] *)
Fixpoint sortChatsDesc (l : list Chat) : list Chat :=
  match l with
  | [] => []
  | x :: l' => insertChatDesc x (sortChatsDesc l')
  end.

(** [Message.findOne({ chatId }).sort({ createdAt: -1 })] *)
Definition lastMessageOf (chat : string) (ms : list Message) : option Message :=
  head (sortDesc (List.filter (λ m, String.eqb (chatId m) chat) ms)).

(** One entry of the answer of [GET /chats]: the chat document with
    [lastMessage], [lastMessageAt] and [unread] laid over it.  (The
    [participants] of the answer are the populated form of those of
    [s_chat].) *)
Record chat_summary : Type := {
  s_chat : Chat;
  s_lastMessage : string;
  s_lastMessageAt : Z;
  s_unread : nat
}.

(** The body of the [chats.map] callback; [countOk] tells whether
    [countDocuments] resolves (it is caught and replaced by 0 otherwise). *)
Definition summarize (me : string) (countOk : string → bool) (d : db) (c : Chat)
    : chat_summary :=
  let lastMsg := lastMessageOf (cid c) (messages d) in
  {| s_chat := c;
     s_lastMessage :=
       match lastMsg with
       | Some m => if String.eqb (text m) "" then lastMessage c else text m
       | None => lastMessage c
       end;
     s_lastMessageAt :=
       match lastMsg with
       | Some m => createdAt m
       | None => updatedAt c
       end;
     s_unread := if countOk (cid c) then modifiedCount (cid c) me d else 0%nat |}.

(** [{ participants: me }]: the chats whose participants contain [me]. *)
Definition chatsOf (me : string) (cs : list Chat) : list Chat :=
  List.filter (λ c, bool_decide (me ∈ participants c)) cs.

(** [GET /chats]; [lastOk] tells per chat whether the [findOne] of its last
    message resolves. *)
Definition getChats (me : string) (findOk : bool) (lastOk countOk : string → bool)
    (d : db) : response (list chat_summary) :=
  if negb findOk then Failure 500 "Internal server error"
  else
    let found := sortChatsDesc (chatsOf me (chats d)) in
    if forallb (λ c, lastOk (cid c)) found
    then Success 200 (map (summarize me countOk d) found)
    else Failure 500 "Internal server error".

(** [partnerIds] of [GET /chats/online]: the participants other than [me]
    of the chats of [me]. *)
Definition partnerIds (me : string) (cs : list Chat) : gset string :=
  list_to_set
    (List.filter (λ id, negb (String.eqb id me))
       (concat (map participants (chatsOf me cs)))).

(** [onlineIds] of [GET /chats/online]: the keys of the presence map that
    are partner ids. *)
Definition onlineIds (me : string) (onlineUsers : gmap string (gset string))
    (d : db) : gset string :=
  filter (λ id, id ∈ partnerIds me (chats d)) (dom onlineUsers).

(** Insertion into a list sorted by [createdAt] ascending, after the
    elements that are not newer. *)
Fixpoint insertAsc (x : Message) (l : list Message) : list Message :=
  match l with
  | [] => [x]
  | y :: l' =>
      if (createdAt x <=? createdAt y)%Z then x :: y :: l'
      else y :: insertAsc x l'
  end.

(** [.sort({ createdAt: 1 })] *)
Fixpoint sortAsc (l : list Message) : list Message :=
  match l with
  | [] => []
  | x :: l' => insertAsc x (sortAsc l')
  end.

(** [getMessages] of [controllers/messageController.js]: every message of
    the chat, oldest first.  (The populated [sender] and [receiver] of the
    answer are left as ids.) *)
Definition controllerGetMessages (isValid : string → bool) (chat : string)
    (findOk : bool) (d : db) : response (list Message) :=
  if negb (isValid chat) then Failure 400 "Invalid chatId"
  else if negb findOk then Failure 500 "Internal server error"
  else Success 200 (sortAsc (List.filter (λ m, String.eqb (chatId m) chat) (messages d))).

(** [router.get("/:chatId")] of [routes/messageRoutes.js] *)
Definition routerGetMessages (isValid : string → bool) (chat : string)
    (findOk : bool) (d : db) : response (list Message) :=
  if negb (isValid chat) then Failure 400 "Invalid chat ID."
  else if negb findOk then Failure 500 "Server error"
  else Success 200 (sortAsc (List.filter (λ m, String.eqb (chatId m) chat) (messages d))).

(** Descending order of [updatedAt]. *)
Definition chat_newer_eq (a b : Chat) : Prop := (updatedAt b ≤ updatedAt a)%Z.

End Inbox.

(** ** Accounts: the user schema, [POST /login], [POST /profile/update],
    [POST /posts] *)

Module Accounts.

(** [postSchema] and [userSchema] of [backend/models/User.js]. *)
Record Post : Type := {
  caption : string;
  image : option string;
  createdAt : Z
}.

Record User : Type := {
  uid : string;
  collegeId : string;
  username : string;
  bio : string;
  profilePic : string;
  coverPic : string;
  posts : list Post
}.

(** The validators of the schema: [collegeId] and [username] required,
    [username] of 2 to 30 characters, [bio] of at most 500, every
    [caption] of at most 1000. *)
Definition schemaValid (u : User) : bool :=
  negb (String.eqb (collegeId u) "")
  && (2 <=? String.length (username u))%nat && (String.length (username u) <=? 30)%nat
  && (String.length (bio u) <=? 500)%nat
  && forallb (λ p, (String.length (caption p) <=? 1000)%nat) (posts u).

(** The [trim: true] setter of [username], which runs when the field is
    assigned. *)
Definition normalize (u : User) : User :=
  {| uid := uid u; collegeId := collegeId u; username := Js.trim (username u);
     bio := bio u; profilePic := profilePic u; coverPic := coverPic u;
     posts := posts u |}.

(** [/^[a-zA-Z0-9@._-]{3,50}$/.test(collegeId)] *)
Definition collegeIdChar (c : ascii) : bool :=
  let n := nat_of_ascii c in
  ((97 <=? n) && (n <=? 122) || (65 <=? n) && (n <=? 90) || (48 <=? n) && (n <=? 57)
   || (n =? 64) || (n =? 46) || (n =? 95) || (n =? 45))%nat.

Definition collegeIdFormat (s : string) : bool :=
  (3 <=? String.length s)%nat && (String.length s <=? 50)%nat
  && forallb collegeIdChar (String.list_ascii_of_string s).

(** [User.findOne({ collegeId })] *)
Definition findByCollegeId (id : string) (users : list User) : option User :=
  List.find (λ u, String.eqb (collegeId u) id) users.

(** [User.findById(id)] *)
Definition findById (id : string) (users : list User) : option User :=
  List.find (λ u, String.eqb (uid u) id) users.

(** [user.save()] of a loaded document: the stored document with the same
    id is replaced. *)
Definition saveUser (u : User) (users : list User) : list User :=
  map (λ v, if String.eqb (uid v) (uid u) then u else v) users.

(** Answer of [POST /login]. *)
Inductive login_response : Type :=
  | LoginOk (token : string) (profile : User)
  | LoginError (status : nat) (message : string).

(** [POST /login] (behind the rate limiter).  [authFn] is the ERP check
    ([None] when it throws), [signToken] signs a token for a user, [newId]
    is the id a created user gets; [findOk] and [createOk] tell whether the
    database calls resolve. *)
Definition login (authFn : string → string → option bool) (signToken : User → string)
    (usernameField passwordField : option string) (newId : string)
    (findOk createOk : bool) (users : list User) : login_response * list User :=
  if negb (Js.truthy usernameField) || negb (Js.truthy passwordField)
  then (LoginError 400 "College ID & password required", users)
  else
    let id := Js.trim (default "" usernameField) in
    let pwd := default "" passwordField in
    if negb (collegeIdFormat id) then (LoginError 400 "Invalid College ID format", users)
    else if (String.length pwd <? 4)%nat then (LoginError 400 "Password too short", users)
    else
      match authFn id pwd with
      | None => (LoginError 500 "Server error during login", users)
      | Some false => (LoginError 401 "Invalid College ID or Password", users)
      | Some true =>
          if negb findOk then (LoginError 500 "Server error during login", users)
          else
            match findByCollegeId id users with
            | Some user => (LoginOk (signToken user) user, users)
            | None =>
                let user := normalize
                  {| uid := newId; collegeId := id; username := id;
                     bio := "Hello! This is my profile."; profilePic := "";
                     coverPic := ""; posts := [] |} in
                if negb createOk || negb (schemaValid user)
                then (LoginError 500 "Server error during login", users)
                else (LoginOk (signToken user) user, users ++ [user])
            end
      end.

(** A JSON answer carrying a profile. *)
Inductive profile_response : Type :=
  | ProfileOk (status : nat) (profile : User)
  | ProfileError (status : nat) (message : string).

(** [POST /profile/update] for the authenticated user [me]; a body field
    is [Some] when it is a JSON string.  [user.save()] fails when [saveOk]
    is false or a validator of the schema rejects the document. *)
Definition profileUpdate (me : string) (newUsername bioField : option string)
    (findOk saveOk : bool) (users : list User) : profile_response * list User :=
  if negb findOk then (ProfileError 500 "Internal server error", users)
  else
    match findById me users with
    | None => (ProfileError 404 "Profile not found", users)
    | Some user =>
        let renamed :=
          match newUsername with
          | Some n =>
              if Js.truthy (Some (Js.trim n)) then Some (Js.trim n) else None
          | None => None
          end in
        match renamed with
        | Some cleaned =>
            if (String.length cleaned <? 2)%nat || (30 <? String.length cleaned)%nat
            then (ProfileError 400 "Username must be 2-30 characters", users)
            else
              let user1 :=
                {| uid := uid user; collegeId := collegeId user; username := cleaned;
                   bio := match bioField with
                          | Some b => String.substring 0 500 b
                          | None => bio user
                          end;
                   profilePic := profilePic user; coverPic := coverPic user;
                   posts := posts user |} in
              if negb saveOk || negb (schemaValid (normalize user1))
              then (ProfileError 500 "Internal server error", users)
              else (ProfileOk 200 (normalize user1), saveUser (normalize user1) users)
        | None =>
            let user1 :=
              {| uid := uid user; collegeId := collegeId user; username := username user;
                 bio := match bioField with
                        | Some b => String.substring 0 500 b
                        | None => bio user
                        end;
                 profilePic := profilePic user; coverPic := coverPic user;
                 posts := posts user |} in
            if negb saveOk || negb (schemaValid user1)
            then (ProfileError 500 "Internal server error", users)
            else (ProfileOk 200 user1, saveUser user1 users)
        end
    end.

(** [POSTS_CAP = Math.max(50, Number(POSTS_PER_USER_CAP) || 500)]; the
    setting is [Some n] when [Number] reads it as the integer [n] and
    [None] when it reads it as [NaN]. *)
Definition postsCap (setting : option Z) : Z :=
  Z.max 50 (match setting with
            | Some n => if (n =? 0)%Z then 500 else n
            | None => 500
            end)%Z.

(** Answer of [POST /posts]: the user's posts, or an error. *)
Inductive posts_response : Type :=
  | PostsOk (status : nat) (posts : list Post)
  | PostsError (status : nat) (message : string).

(** [POST /posts] (JSON) for the authenticated user [me] at time [now]:
    [captionField] is the body's [caption] when it is a string, [mediaUri]
    is [media.uri] when it is a string.  The third component is the
    [post:created] event, as (room, [user.posts[0]]). *)
Definition createPost (cap : Z) (me : string) (captionField mediaUri : option string)
    (now : Z) (findOk saveOk : bool) (users : list User)
    : posts_response * list User * option (string * option Post) :=
  let cleanedCaption :=
    String.substring 0 1000
      (Js.trim (if Js.truthy captionField then default "" captionField else "")) in
  if negb findOk then (PostsError 500 "Internal server error", users, None)
  else
    match findById me users with
    | None => (PostsError 404 "Profile not found", users, None)
    | Some user =>
        let imageUrl := if Js.truthy mediaUri then mediaUri else None in
        let post := {| caption := cleanedCaption; image := imageUrl; createdAt := now |} in
        let unshifted := post :: posts user in
        let kept :=
          if (cap <? Z.of_nat (length unshifted))%Z
          then take (Z.to_nat cap) unshifted else unshifted in
        let user1 :=
          {| uid := uid user; collegeId := collegeId user; username := username user;
             bio := bio user; profilePic := profilePic user;
             coverPic := coverPic user; posts := kept |} in
        if negb saveOk || negb (schemaValid user1)
        then (PostsError 500 "Internal server error", users, None)
        else (PostsOk 201 kept, saveUser user1 users, Some (me, head kept))
    end.

(** Every stored user passes the schema, has a trimmed [username], and no
    two users share a [collegeId] or an id. *)
Definition users_wf (users : list User) : Prop :=
  Forall (λ u, schemaValid u = true ∧ Js.trim (username u) = username u) users ∧
  NoDup (map collegeId users) ∧ NoDup (map uid users).

End Accounts.

(** ** Files: [validateImageMagic] *)

Module Files.

(** [buf] starts with the bytes [sig]. *)
Fixpoint startsWith (sig buf : list Byte.byte) : bool :=
  match sig, buf with
  | [], _ => true
  | s :: sig', b :: buf' => Byte.eqb s b && startsWith sig' buf'
  | _ :: _, [] => false
  end.

Definition jpegMagic : list Byte.byte := [Byte.xff; Byte.xd8; Byte.xff].
Definition pngMagic : list Byte.byte := [Byte.x89; Byte.x50; Byte.x4e; Byte.x47].
Definition gifMagic : list Byte.byte := [Byte.x47; Byte.x49; Byte.x46; Byte.x38].
Definition riffMagic : list Byte.byte := [Byte.x52; Byte.x49; Byte.x46; Byte.x46].
Definition webpMagic : list Byte.byte := [Byte.x57; Byte.x45; Byte.x42; Byte.x50].

(** [validateImageMagic] on a file with the given content: the first 12
    bytes are read into a zeroed buffer of 12 bytes, which is compared with
    the signatures of JPEG, PNG, GIF and RIFF/WEBP. *)
Definition validateImageMagic (file : list Byte.byte) : bool :=
  let bytesRead := Nat.min 12 (length file) in
  let buffer := take 12 file ++ replicate (12 - bytesRead) Byte.x00 in
  if (bytesRead =? 0)%nat then false
  else if startsWith jpegMagic buffer then true
  else if startsWith pngMagic buffer then true
  else if startsWith gifMagic buffer then true
  else if startsWith riffMagic buffer && startsWith webpMagic (drop 8 buffer) then true
  else false.

End Files.

(** * Properties *)

(** ** Presence *)

Module PresenceTheory.
Import Presence.

Lemma sessions_add u s u' s' m :
  s ∈ sessions (addPresence u' s' m) u ↔ (u' = u ∧ s' = s) ∨ s ∈ sessions m u.
Proof.
  unfold sessions, addPresence.
  destruct (decide (u' = u)) as [->|Hne].
  - destruct (m !! u) as [S|] eqn:E; rewrite lookup_insert_eq; simpl; set_solver.
  - destruct (m !! u') as [S|] eqn:E; rewrite lookup_insert_ne by done;
      naive_solver.
Qed.

Lemma sessions_remove u s u' s' m :
  s ∈ sessions (removePresence u' s' m) u ↔ ¬ (u' = u ∧ s' = s) ∧ s ∈ sessions m u.
Proof.
  unfold sessions, removePresence.
  destruct (decide (u' = u)) as [->|Hne].
  - destruct (m !! u) as [S|] eqn:E; simpl.
    + case_decide as Hsz.
      * rewrite lookup_delete_eq. simpl.
        apply size_empty_inv in Hsz. set_solver.
      * rewrite lookup_insert_eq. simpl. set_solver.
    + rewrite E. simpl. set_solver.
  - destruct (m !! u') as [S|] eqn:E; [case_decide|];
      rewrite ?lookup_delete_ne, ?lookup_insert_ne by done; naive_solver.
Qed.

Lemma add_no_empty_set u s m : no_empty_set m → no_empty_set (addPresence u s m).
Proof.
  intros Hm v S. unfold addPresence.
  destruct (decide (u = v)) as [->|Hne].
  - destruct (m !! v) eqn:E; rewrite lookup_insert_eq; intros [= <-]; set_solver.
  - destruct (m !! u) eqn:E; rewrite lookup_insert_ne by done; apply Hm.
Qed.

Lemma remove_no_empty_set u s m :
  no_empty_set m → no_empty_set (removePresence u s m).
Proof.
  intros Hm v S. unfold removePresence.
  destruct (m !! u) as [S0|] eqn:E; [|apply Hm].
  simpl. case_decide as Hsz.
  - destruct (decide (u = v)) as [->|Hne].
    + by rewrite lookup_delete_eq.
    + rewrite lookup_delete_ne by done. apply Hm.
  - destruct (decide (u = v)) as [->|Hne].
    + rewrite lookup_insert_eq. intros [= <-] Hemp.
      apply Hsz. rewrite Hemp. apply size_empty.
    + rewrite lookup_insert_ne by done. apply Hm.
Qed.

Lemma run_no_empty_set evs m : no_empty_set m → no_empty_set (run evs m).
Proof.
  revert m. induction evs as [|e evs IH]; intros m Hm; [done|].
  simpl. apply IH. destruct e; [by apply add_no_empty_set|by apply remove_no_empty_set].
Qed.

Lemma empty_no_empty_set : no_empty_set emptyOnline.
Proof. intros u S. unfold emptyOnline. by rewrite lookup_empty. Qed.

Lemma isOnline_sessions m u :
  no_empty_set m → (isOnline m u = true ↔ ∃ s, s ∈ sessions m u).
Proof.
  intros Hm. unfold isOnline, sessions. rewrite bool_decide_eq_true.
  destruct (m !! u) as [S|] eqn:E; simpl.
  - split; [intros _|by eauto].
    apply set_choose_L. by eapply Hm.
  - split; [by intros [? ?]|]. intros [s Hs]. set_solver.
Qed.

Lemma run_sessions evs : ∀ m u s,
  s ∈ sessions (run evs m) u ↔ live u s evs (bool_decide (s ∈ sessions m u)) = true.
Proof.
  induction evs as [|e evs IH]; intros m u s.
  - simpl. by rewrite bool_decide_eq_true.
  - simpl. rewrite IH. destruct e as [u' s'|u' s']; simpl.
    + case_decide as Hd.
      * rewrite bool_decide_eq_true_2; [done|]. apply sessions_add. by left.
      * erewrite bool_decide_ext; [done|]. rewrite sessions_add. naive_solver.
    + case_decide as Hd.
      * rewrite bool_decide_eq_false_2; [done|]. rewrite sessions_remove. naive_solver.
      * erewrite bool_decide_ext; [done|]. rewrite sessions_remove. naive_solver.
Qed.

Lemma live_true u s evs :
  live u s evs true = true ↔
  live u s evs false = true ∨ existsb (is_disconnect u s) evs = false.
Proof.
  induction evs as [|e evs IH]; simpl.
  - naive_solver.
  - destruct e as [u' s'|u' s']; simpl.
    + case_decide; [|done]. rewrite IH. naive_solver.
    + case_decide as Hd.
      * destruct Hd as [-> ->]. rewrite !bool_decide_eq_true_2 by done. simpl.
        naive_solver.
      * rewrite IH. apply not_and_l in Hd as [Hd|Hd].
        -- by rewrite (bool_decide_eq_false_2 _ Hd).
        -- rewrite (bool_decide_eq_false_2 _ Hd). by rewrite andb_false_r.
Qed.

Lemma outstanding_live u evs :
  outstanding u evs = true ↔ ∃ s, live u s evs false = true.
Proof.
  induction evs as [|e evs IH]; simpl.
  - split; [done|]. by intros [_ ?].
  - destruct e as [u' s'|u' s'].
    + rewrite orb_true_iff, andb_true_iff, bool_decide_eq_true, negb_true_iff, IH.
      split.
      * intros [[-> Hno]|[s Hs]].
        -- exists s'. rewrite decide_True by done. apply live_true. by right.
        -- exists s. case_decide; [|done]. apply live_true. by left.
      * intros [s Hs]. case_decide as Hd; [|by eauto].
        destruct Hd as [-> ->]. apply live_true in Hs as [Hs|Hs]; by eauto.
    + rewrite IH. split; intros [s Hs]; exists s; by case_decide.
Qed.

Lemma addPresence_idempotent m u s :
  addPresence u s (addPresence u s m) = addPresence u s m.
Proof.
  unfold addPresence. destruct (m !! u) as [S|] eqn:E.
  - rewrite lookup_insert_eq, insert_insert_eq. f_equal. set_solver.
  - rewrite lookup_insert_eq, insert_insert_eq. f_equal. set_solver.
Qed.

Lemma run_snoc evs e m : run (evs ++ [e]) m = step (run evs m) e.
Proof. unfold run. by rewrite foldl_app. Qed.

Lemma sessions_add_eq u s m :
  sessions (addPresence u s m) u = {[s]} ∪ sessions m u.
Proof. apply set_eq. intros x. rewrite sessions_add. set_solver. Qed.

Lemma sessions_add_ne u u' s m :
  u' ≠ u → sessions (addPresence u' s m) u = sessions m u.
Proof. intros Hne. apply set_eq. intros x. rewrite sessions_add. naive_solver. Qed.

Lemma sessions_remove_eq u s m :
  sessions (removePresence u s m) u = sessions m u ∖ {[s]}.
Proof. apply set_eq. intros x. rewrite sessions_remove. set_solver. Qed.

Lemma sessions_remove_ne u u' s m :
  u' ≠ u → sessions (removePresence u' s m) u = sessions m u.
Proof. intros Hne. apply set_eq. intros x. rewrite sessions_remove. naive_solver. Qed.

Lemma connects_snoc u evs e :
  connects u (evs ++ [e])
  = (connects u evs + if of_user u e && is_connect e then 1 else 0)%nat.
Proof.
  unfold connects. rewrite List.filter_app, length_app. simpl.
  by destruct (of_user u e && is_connect e).
Qed.

Lemma disconnects_snoc u evs e :
  disconnects u (evs ++ [e])
  = (disconnects u evs + if of_user u e && negb (is_connect e) then 1 else 0)%nat.
Proof.
  unfold disconnects. rewrite List.filter_app, length_app. simpl.
  by destruct (of_user u e && negb (is_connect e)).
Qed.

(** On a socket trace the session set of a user holds the sockets that
    connected and did not disconnect, and its size is the number of
    connects minus the number of disconnects. *)
Lemma socket_trace_sessions evs :
  socket_trace evs →
  ∀ u, (∀ s, s ∈ sessions (run evs emptyOnline) u ↔
             Connect u s ∈ evs ∧ Disconnect u s ∉ evs) ∧
       (size (sessions (run evs emptyOnline) u) + disconnects u evs
        = connects u evs)%nat.
Proof.
  induction 1 as [|evs u' s' Ht IH Hfresh|evs u' s' Ht IH Hconn Hnot]; intros u.
  - split; [|done]. intros s. unfold sessions, run, emptyOnline. simpl.
    rewrite lookup_empty. simpl. set_solver.
  - destruct (IH u) as [Hmem Hsize]. rewrite run_snoc. simpl. split.
    + intros s. rewrite sessions_add, Hmem, !elem_of_app, !list_elem_of_singleton.
      split.
      * intros [[-> ->]|[Hc Hd]]; [|naive_solver].
        split; [by right|]. intros [Hd|Hd]; [|done].
        destruct (IH u) as [Hmem' _].
        assert (Hs : s ∉ sessions (run evs emptyOnline) u) by (rewrite Hmem'; naive_solver).
        clear Hs. revert Hd Hfresh. clear -Ht.
        induction Ht as [|evs u0 s0 Ht IH Hf|evs u0 s0 Ht IH Hc Hn];
          intros Hd Hfresh.
        -- by apply elem_of_nil in Hd.
        -- apply elem_of_app in Hd as [Hd|Hd%list_elem_of_singleton]; [|done].
           apply IH; [done|]. intros Hin. apply Hfresh. apply elem_of_app. by left.
        -- apply elem_of_app in Hd as [Hd|Hd%list_elem_of_singleton].
           ++ apply IH; [done|]. intros Hin. apply Hfresh. apply elem_of_app. by left.
           ++ injection Hd as <- <-. apply Hfresh. apply elem_of_app. by left.
      * intros [[Hc|Hc] Hd]; [right; naive_solver|]. left. by injection Hc.
    + rewrite connects_snoc, disconnects_snoc. simpl. rewrite andb_false_r, andb_true_r.
      destruct (decide (u' = u)) as [->|Hne].
      * rewrite bool_decide_eq_true_2 by done. rewrite sessions_add_eq.
        rewrite size_union by (apply disjoint_singleton_l; rewrite Hmem; naive_solver).
        rewrite size_singleton. lia.
      * rewrite bool_decide_eq_false_2 by done. rewrite sessions_add_ne by done. lia.
  - destruct (IH u) as [Hmem Hsize]. rewrite run_snoc. simpl. split.
    + intros s. rewrite sessions_remove, Hmem, !elem_of_app, !list_elem_of_singleton.
      split.
      * intros [Hne [Hc Hd]]. split; [by left|].
        intros [Hd'|Hd']; [done|]. apply Hne. by injection Hd'.
      * intros [[Hc|Hc] Hd]; [|done]. split; [|naive_solver].
        intros [-> ->]. apply Hd. by right.
    + rewrite connects_snoc, disconnects_snoc. simpl. rewrite andb_false_r, andb_true_r.
      destruct (decide (u' = u)) as [->|Hne].
      * rewrite bool_decide_eq_true_2 by done. rewrite sessions_remove_eq.
        assert (Hin : s' ∈ sessions (run evs emptyOnline) u) by by apply Hmem.
        rewrite size_difference by set_solver. rewrite size_singleton.
        assert (size (sessions (run evs emptyOnline) u) ≠ 0)%nat.
        { intros H0. apply size_empty_inv in H0. set_solver. }
        lia.
      * rewrite bool_decide_eq_false_2 by done. rewrite sessions_remove_ne by done. lia.
Qed.

Example outstanding_closed :
  outstanding "u" [Connect "u" "a"; Connect "u" "a"; Disconnect "u" "a"] = false.
Proof. reflexivity. Qed.

Example outstanding_second_device :
  outstanding "u" [Connect "u" "a"; Connect "u" "b"; Disconnect "u" "a"] = true.
Proof. reflexivity. Qed.

(** C3. Starting from the empty map, after any sequence of [addPresence]
    and [removePresence] calls a user id is a key of the presence map
    exactly when its session set is not empty, no key holds an empty set,
    and removing the only session of a user deletes the user's key. *)
Theorem presence_key_iff_sessions (evs : list event) :
  let m := run evs emptyOnline in
  (∀ u, is_Some (m !! u) ↔ sessions m u ≠ ∅) ∧
  (∀ u S, m !! u = Some S → S ≠ ∅) ∧
  (∀ u s, sessions m u ⊆ {[s]} → removePresence u s m !! u = None).
Proof.
  intros m.
  assert (Hm : no_empty_set m) by (apply run_no_empty_set, empty_no_empty_set).
  split; [|split].
  - intros u. unfold sessions. destruct (m !! u) as [S|] eqn:E; simpl.
    + split; [intros _; by eapply Hm|by eauto].
    + split; [by intros [? ?]|done].
  - exact Hm.
  - intros u s Hsub. unfold removePresence, sessions in *.
    destruct (m !! u) as [S|] eqn:E; simpl in *; [|done].
    rewrite decide_True; [apply lookup_delete_eq|].
    apply size_empty_iff. set_solver.
Qed.

Lemma presence_key_iff_sessions_witness :
  removePresence "u1" "s1" (run [Connect "u1" "s1"] emptyOnline) !! "u1" = None.
Proof.
  apply (presence_key_iff_sessions [Connect "u1" "s1"]).
  vm_compute. set_solver.
Defined.

(** C4. For every sequence of connects and disconnects applied to the empty
    presence map, a user is online (is a key of the map) exactly when one of
    its connects is followed by no disconnect of the same user and socket;
    and [addPresence] applied twice with the same pair gives the state of
    applying it once.  On the traces of the socket server, where a socket
    id connects once and disconnects once afterwards, this is: the user has
    more connects than disconnects. *)
Theorem online_iff_outstanding_connect :
  (∀ evs u, isOnline (run evs emptyOnline) u = outstanding u evs) ∧
  (∀ m u s, addPresence u s (addPresence u s m) = addPresence u s m) ∧
  (∀ evs u, socket_trace evs →
     (isOnline (run evs emptyOnline) u = true ↔
      (disconnects u evs < connects u evs)%nat)).
Proof.
  split; [|split; [apply addPresence_idempotent|]]; cycle 1.
  { intros evs u Ht. destruct (socket_trace_sessions evs Ht u) as [_ Hsize].
    rewrite isOnline_sessions by (apply run_no_empty_set, empty_no_empty_set).
    split.
    - intros [s Hs].
      assert (size (sessions (run evs emptyOnline) u) ≠ 0)%nat.
      { intros H0. apply size_empty_inv in H0. set_solver. }
      lia.
    - intros Hlt. apply set_choose_L. intros Hemp. rewrite Hemp, size_empty in Hsize. lia. }
  intros evs u. apply Bool.eq_iff_eq_true.
  rewrite isOnline_sessions by (apply run_no_empty_set, empty_no_empty_set).
  rewrite outstanding_live.
  split; intros [s Hs]; exists s.
  - apply run_sessions in Hs. by rewrite bool_decide_eq_false_2 in Hs by set_solver.
  - apply run_sessions. by rewrite bool_decide_eq_false_2 by set_solver.
Qed.

Lemma online_iff_outstanding_connect_witness :
  isOnline (run ([] ++ [Connect "u1" "s1"]) emptyOnline) "u1" = true.
Proof.
  destruct online_iff_outstanding_connect as (_ & _ & Hcount).
  apply (Hcount ([] ++ [Connect "u1" "s1"]) "u1").
  - apply trace_connect; [apply trace_nil|]. by intros ?%elem_of_nil.
  - vm_compute. lia.
Defined.

End PresenceTheory.

(** ** Token blacklist *)

Module RevocationTheory.
Import Revocation.

Lemma blacklistToken_revokes now token ttl bl :
  token ≠ "" →
  revokedUntil token (blacklistToken false now token ttl bl)
    = Some (now + ttl * 1000)%Z.
Proof.
  intros Hne. unfold revokedUntil, blacklistToken.
  destruct (String.eqb_spec token ""); [done|]. simpl. apply lookup_insert_eq.
Qed.

Lemma isRevoked_revokedUntil token bl :
  isRevoked token bl = true ↔ is_Some (revokedUntil token bl).
Proof. unfold isRevoked, revokedUntil. apply bool_decide_eq_true. Qed.

Lemma revokedUntil_sweep token now bl exp :
  revokedUntil token (sweep now bl) = Some exp ↔
  revokedUntil token bl = Some exp ∧ (now < exp)%Z.
Proof. unfold revokedUntil, sweep. simpl. apply map_lookup_filter_Some. Qed.

Lemma keeps_apply_op token exp o bl :
  keeps token exp o →
  revokedUntil token bl = Some exp →
  revokedUntil token (apply_op bl o) = Some exp.
Proof.
  destruct o as [now token' ttl|now]; simpl; intros Hk Hbl.
  - unfold blacklistToken. destruct (String.eqb_spec token' ""); [done|].
    unfold revokedUntil in *. simpl. by rewrite lookup_insert_ne.
  - by apply revokedUntil_sweep.
Qed.

Lemma keeps_run token exp ops : ∀ bl,
  Forall (keeps token exp) ops →
  revokedUntil token bl = Some exp →
  revokedUntil token (run ops bl) = Some exp.
Proof.
  induction ops as [|o ops IH]; intros bl Hall Hbl; [done|].
  inversion Hall as [|? ? Ho Hops]; subst. simpl.
  apply IH; [done|]. by apply keeps_apply_op.
Qed.

(** With Redis in use the in-memory map is left alone and one [SETEX] of
    the key ["blacklist:" + token] is sent. *)
Lemma blacklistToken_redis now token ttl bl :
  token ≠ "" →
  blacklistToken true now token ttl bl
  = {| inMemoryBlacklist := inMemoryBlacklist bl;
       redisSent := redisSent bl ++ [Setex ("blacklist:" +:+ token) ttl "1"] |}.
Proof.
  intros Hne. unfold blacklistToken. by destruct (String.eqb_spec token "").
Qed.

(** A call without a token changes nothing. *)
Lemma blacklistToken_no_token useRedis now ttl bl :
  blacklistToken useRedis now "" ttl bl = bl.
Proof. done. Qed.

(** C1, as the code has it.  In the in-memory variant, after
    [blacklistToken] of a non-empty token the token is revoked at once and
    stays revoked, whatever the clock says, as long as every sweep that
    runs does so before [revokedUntil] (other tokens may be blacklisted
    meanwhile); the first sweep that runs at or after [revokedUntil]
    deletes the entry, and the token is no longer revoked.  The check is a
    key lookup: the stored expiry is compared with the clock by the sweep
    only. *)
Theorem revoked_until_swept (now ttl : Z) (token : string) (bl : blacklist)
    (ops : list op) :
  token ≠ "" →
  Forall (keeps token (now + ttl * 1000)%Z) ops →
  let bl0 := blacklistToken false now token ttl bl in
  let bl1 := run ops bl0 in
  isRevoked token bl0 = true ∧
  revokedUntil token bl1 = Some (now + ttl * 1000)%Z ∧
  isRevoked token bl1 = true ∧
  ∀ t, (now + ttl * 1000 ≤ t)%Z → isRevoked token (sweep t bl1) = false.
Proof.
  intros Hne Hops bl0 bl1.
  assert (H0 : revokedUntil token bl0 = Some (now + ttl * 1000)%Z)
    by by apply blacklistToken_revokes.
  assert (H1 : revokedUntil token bl1 = Some (now + ttl * 1000)%Z)
    by by apply keeps_run.
  split; [|split; [done|split]].
  - apply isRevoked_revokedUntil. by rewrite H0.
  - apply isRevoked_revokedUntil. by rewrite H1.
  - intros t Ht. apply not_true_is_false. rewrite isRevoked_revokedUntil.
    intros [exp Hexp]. apply revokedUntil_sweep in Hexp as [Hexp Hlt].
    rewrite H1 in Hexp. injection Hexp as <-. lia.
Qed.

Lemma revoked_until_swept_witness :
  isRevoked "tok" (run [Sweep 59999; BlacklistToken 100 "other" 5]
                     (blacklistToken false 0 "tok" 60 emptyBlacklist)) = true.
Proof.
  assert (Hne : "tok" ≠ "") by discriminate.
  assert (Hops : Forall (keeps "tok" (0 + 60 * 1000)%Z)
                   [Sweep 59999; BlacklistToken 100 "other" 5]).
  { apply Forall_cons; split; [simpl; lia|].
    apply Forall_cons; split; [simpl; discriminate|apply Forall_nil_2]. }
  destruct (revoked_until_swept 0 60 "tok" emptyBlacklist
              [Sweep 59999; BlacklistToken 100 "other" 5] Hne Hops)
    as (_ & _ & Hrev & _).
  exact Hrev.
Defined.

(** C1, as stated, fails: a token blacklisted at time 0 for 60 seconds has
    [revokedUntil = 60000]; with no sweep run, the lookup made at time
    60001 still reports it revoked, where a comparison with the stored
    expiry would not. *)
Lemma revoked_after_expiry_without_sweep :
  let bl := run [] (blacklistToken false 0 "tok" 60 emptyBlacklist) in
  revokedUntil "tok" bl = Some 60000%Z ∧
  (60000 < 60001)%Z ∧
  isRevoked "tok" bl = true ∧
  isRevoked_checktime 60001 "tok" bl = false.
Proof. vm_compute. repeat split; done. Qed.

End RevocationTheory.

(** ** Authentication *)

Module AuthTheory.
Import Auth.

(** The decision both middlewares take once a token is in hand. *)
Lemma auth_on_token e bl req token :
  extractTokenFromRequest req = Some token → token ≠ "" →
  auth e bl req =
    match blacklisted e bl token with
    | None => Reject "Invalid or expired token"
    | Some true => Reject "Token revoked"
    | Some false =>
        match jwtVerify e token with
        | Some p => Next p
        | None => Reject "Invalid or expired token"
        end
    end.
Proof.
  intros Hx Hne. unfold auth. rewrite Hx. simpl.
  by destruct (String.eqb_spec token "").
Qed.

Lemma socketAuth_on_token e bl h :
  handshakeToken h ≠ "" →
  socketAuth e bl h =
    match blacklisted e bl (handshakeToken h) with
    | None => Reject "Invalid token"
    | Some true => Reject "Token revoked"
    | Some false =>
        match jwtVerify e (handshakeToken h) with
        | Some p => Next p
        | None => Reject "Invalid token"
        end
    end.
Proof.
  intros Hne. unfold socketAuth.
  by destruct (String.eqb_spec (handshakeToken h) "").
Qed.

(** C2, as the code has it.  In the REST middleware and in the socket
    handshake the blacklist lookup comes before [jwt.verify]: a presented
    token that is blacklisted is rejected with "Token revoked" whether or
    not it would verify; a token that is not blacklisted is let through
    exactly when it verifies and is rejected as invalid otherwise; and
    access is granted only to a token that is both not blacklisted and
    verified. *)
Theorem blacklist_checked_before_verify (e : env) (bl : Revocation.blacklist)
    (req : request) (h : handshake) (token : string) :
  token ≠ "" →
  extractTokenFromRequest req = Some token →
  handshakeToken h = token →
  (blacklisted e bl token = Some true →
     auth e bl req = Reject "Token revoked" ∧
     socketAuth e bl h = Reject "Token revoked") ∧
  (blacklisted e bl token = Some false → jwtVerify e token = None →
     auth e bl req = Reject "Invalid or expired token" ∧
     socketAuth e bl h = Reject "Invalid token") ∧
  (∀ p, auth e bl req = Next p ∨ socketAuth e bl h = Next p →
     blacklisted e bl token = Some false ∧ jwtVerify e token = Some p) ∧
  (∀ p, blacklisted e bl token = Some false → jwtVerify e token = Some p →
     auth e bl req = Next p ∧ socketAuth e bl h = Next p).
Proof.
  intros Hne Hreq Hh.
  rewrite (auth_on_token e bl req token Hreq Hne).
  rewrite socketAuth_on_token by (by rewrite Hh). rewrite Hh.
  split; [|split; [|split]].
  - by intros ->.
  - by intros -> ->.
  - intros p.
    destruct (blacklisted e bl token) as [[]|]; [naive_solver| |naive_solver].
    destruct (jwtVerify e token); naive_solver.
  - by intros p -> ->.
Qed.

Lemma blacklist_checked_before_verify_witness :
  auth envNothingVerifies
    (Revocation.blacklistToken false 0 "bad.token" 86400 Revocation.emptyBlacklist)
    {| authorization := "Bearer bad.token"; accessTokenCookie := None |}
  = Reject "Token revoked".
Proof.
  assert (Hne : "bad.token" ≠ "") by discriminate.
  destruct (blacklist_checked_before_verify envNothingVerifies
           (Revocation.blacklistToken false 0 "bad.token" 86400 Revocation.emptyBlacklist)
           {| authorization := "Bearer bad.token"; accessTokenCookie := None |}
           {| authToken := Some "bad.token"; headerAuthorization := None |}
           "bad.token" Hne eq_refl eq_refl) as (Hrev & _).
  apply Hrev. vm_compute. reflexivity.
Defined.

(** C2, as stated, fails: a token that does not verify and is blacklisted
    is rejected with "Token revoked" by both middlewares, where checking
    the blacklist after verification would answer "Invalid or expired
    token". *)
Lemma invalid_and_blacklisted_is_revoked :
  let bl := Revocation.blacklistToken false 0 "bad.token" 86400
              Revocation.emptyBlacklist in
  let req := {| authorization := "Bearer bad.token"; accessTokenCookie := None |} in
  let h := {| authToken := Some "Bearer bad.token"; headerAuthorization := None |} in
  jwtVerify envNothingVerifies "bad.token" = None ∧
  Revocation.isRevoked "bad.token" bl = true ∧
  auth envNothingVerifies bl req = Reject "Token revoked" ∧
  socketAuth envNothingVerifies bl h = Reject "Token revoked" ∧
  auth_verify_first envNothingVerifies bl req = Reject "Invalid or expired token".
Proof. vm_compute. repeat split; done. Qed.

End AuthTheory.

(** ** Trimming *)

Module JsTheory.
Import Js.

Lemma trimStartL_split l :
  ∃ pre, l = (pre ++ trimStartL l)%list ∧ forallb isWhiteSpace pre = true.
Proof.
  induction l as [|c l [pre [Hl Hpre]]]; simpl.
  - by exists [].
  - destruct (isWhiteSpace c) eqn:Hc.
    + exists (c :: pre). simpl. rewrite Hc, Hpre. by rewrite <- Hl.
    + by exists [].
Qed.

Lemma trimStartL_head l c : head (trimStartL l) = Some c → isWhiteSpace c = false.
Proof.
  induction l as [|a l IH]; simpl; [done|].
  destruct (isWhiteSpace a) eqn:Ha; [done|]. simpl. by intros [= <-].
Qed.

Lemma trimStartL_nil l : trimStartL l = [] ↔ forallb isWhiteSpace l = true.
Proof.
  induction l as [|a l IH]; simpl; [done|].
  destruct (isWhiteSpace a); simpl; [done|]. split; discriminate.
Qed.

Lemma forallb_rev {A} (f : A → bool) (l : list A) :
  forallb f (rev l) = forallb f l.
Proof.
  induction l as [|a l IH]; [done|].
  simpl. rewrite forallb_app, IH. simpl. rewrite andb_true_r. apply andb_comm.
Qed.

Lemma last_rev_head {A} (l : list A) : last (rev l) = head l.
Proof. destruct l as [|a l]; [done|]. simpl. apply last_snoc. Qed.

Lemma trimEndL_split l :
  ∃ post, l = (trimEndL l ++ post)%list ∧ forallb isWhiteSpace post = true.
Proof.
  unfold trimEndL. destruct (trimStartL_split (rev l)) as [pre [Hl Hpre]].
  exists (rev pre). split.
  - rewrite <- rev_app_distr, <- Hl. by rewrite rev_involutive.
  - by rewrite forallb_rev.
Qed.

Lemma trimEndL_last l c : last (trimEndL l) = Some c → isWhiteSpace c = false.
Proof.
  unfold trimEndL. rewrite last_rev_head. apply trimStartL_head.
Qed.

Lemma trimEndL_head l c : head (trimEndL l) = Some c → head l = Some c.
Proof.
  destruct (trimEndL_split l) as [post [Hl _]]. intros Hc.
  rewrite Hl. destruct (trimEndL l); [done|]. by simpl in *.
Qed.

(** [trim] removes a run of white space at each end and nothing else; what
    is left neither starts nor ends with white space. *)
Lemma trim_spec s :
  ∃ pre post,
    String.list_ascii_of_string s
      = (pre ++ String.list_ascii_of_string (trim s) ++ post)%list ∧
    forallb isWhiteSpace pre = true ∧
    forallb isWhiteSpace post = true ∧
    (∀ c, head (String.list_ascii_of_string (trim s)) = Some c → isWhiteSpace c = false) ∧
    (∀ c, last (String.list_ascii_of_string (trim s)) = Some c → isWhiteSpace c = false).
Proof.
  unfold trim. rewrite String.list_ascii_of_string_of_list_ascii.
  set (l := String.list_ascii_of_string s).
  destruct (trimStartL_split l) as [pre [Hl Hpre]].
  destruct (trimEndL_split (trimStartL l)) as [post [Hm Hpost]].
  exists pre, post. split; [|split; [done|split; [done|split]]].
  - by rewrite <- Hm.
  - intros c Hc. apply trimEndL_head in Hc. by eapply trimStartL_head.
  - apply trimEndL_last.
Qed.

(** The text trims to the empty string exactly when it is white space
    only. *)
Lemma trimEndL_nil l : trimEndL l = [] ↔ forallb isWhiteSpace l = true.
Proof.
  unfold trimEndL. rewrite <- (forallb_rev _ l), <- trimStartL_nil.
  split; [|by intros ->].
  intros H. apply (f_equal (@rev _)) in H. by rewrite rev_involutive in H.
Qed.

Lemma trim_empty s :
  trim s = "" ↔ forallb isWhiteSpace (String.list_ascii_of_string s) = true.
Proof.
  unfold trim. set (l := String.list_ascii_of_string s).
  rewrite <- trimStartL_nil. split.
  - intros H. apply (f_equal String.list_ascii_of_string) in H.
    rewrite String.list_ascii_of_string_of_list_ascii in H. simpl in H.
    apply trimEndL_nil in H.
    destruct (trimStartL l) as [|c t] eqn:E; [done|].
    pose proof (trimStartL_head l c) as Hc. rewrite E in Hc.
    simpl in H. rewrite Hc in H by done. done.
  - by intros ->.
Qed.

Lemma truthy_trim_false s : trim s = "" → truthy (Some (trim s)) = false.
Proof. by intros ->. Qed.

Example trim_example : trim "  hello world  " = "hello world".
Proof. reflexivity. Qed.

End JsTheory.

(** ** Messages: mark as seen, sending *)

Module MessagingTheory.
Import Messaging.

Lemma unseenFor_setSeen chat user m : unseenFor chat user (setSeen chat user m) = false.
Proof.
  unfold setSeen. destruct (unseenFor chat user m) eqn:E; [|done].
  unfold unseenFor. simpl. by rewrite andb_false_r.
Qed.

Lemma setSeen_idempotent chat user m :
  setSeen chat user (setSeen chat user m) = setSeen chat user m.
Proof.
  unfold setSeen at 1. by rewrite unseenFor_setSeen.
Qed.

Lemma setSeen_spec chat user m :
  sameButSeen m (setSeen chat user m) ∧
  (seen (setSeen chat user m) = true ↔
     seen m = true ∨ (chatId m = chat ∧ receiver m = user)) ∧
  (setSeen chat user m ≠ m ↔ chatId m = chat ∧ receiver m = user ∧ seen m = false).
Proof.
  unfold setSeen, unseenFor, sameButSeen.
  destruct (String.eqb_spec (chatId m) chat) as [Hc|Hc];
    destruct (String.eqb_spec (receiver m) user) as [Hr|Hr];
    destruct (seen m) eqn:Hs; simpl; rewrite ?Hs;
    (split; [done|split; [naive_solver|]]); try naive_solver.
  split; [done|]. intros _ Heq. rewrite <- Heq in Hs. by simpl in Hs.
Qed.

Lemma changedCount_setSeen chat user l :
  changedCount l (map (setSeen chat user) l)
  = length (List.filter (unseenFor chat user) l).
Proof.
  unfold changedCount. induction l as [|m l IH]; [done|].
  simpl. unfold setSeen at 1.
  destruct (unseenFor chat user m) eqn:E; simpl.
  - unfold unseenFor in E. apply andb_true_iff in E as [_ Hs].
    apply negb_true_iff in Hs. rewrite Hs. simpl. by rewrite IH.
  - rewrite Bool.eqb_reflx. simpl. apply IH.
Qed.

Lemma filter_unseen_after chat user l :
  List.filter (unseenFor chat user) (map (setSeen chat user) l) = [].
Proof.
  induction l as [|m l IH]; [done|]. simpl. by rewrite unseenFor_setSeen.
Qed.

(** C7. [PUT /messages/:chatId/seen] replaces every message by itself
    with [seen] set where the message belongs to the chat, is addressed to
    the caller and was unseen; no other field and no other message changes,
    no flag goes back to false, and the answer is the number of messages
    whose flag changed.  A second call right after answers 0 and changes
    nothing.  [markAsSeen] of the controller does the same. *)
Theorem markSeen_flips_unseen (me chat : string) (w : world) :
  let r := putSeen me chat true (store w) in
  let w' := exec w (snd r) in
  (∃ n, fst r = Success 200 n ∧
        n = changedCount (messages (store w)) (messages (store w'))) ∧
  length (messages (store w')) = length (messages (store w)) ∧
  (∀ i m, messages (store w) !! i = Some m →
     ∃ m', messages (store w') !! i = Some m' ∧
       sameButSeen m m' ∧
       (seen m' = true ↔ seen m = true ∨ (chatId m = chat ∧ receiver m = me)) ∧
       (m' ≠ m ↔ chatId m = chat ∧ receiver m = me ∧ seen m = false)) ∧
  chats (store w') = chats (store w) ∧
  emitted w' = emitted w ∧
  fst (putSeen me chat true (store w')) = Success 200 0%nat ∧
  exec w' (snd (putSeen me chat true (store w'))) = w' ∧
  markAsSeen me chat true (store w) = r.
Proof.
  simpl. unfold modifiedCount.
  split; [|split; [|split; [|split; [|split; [|split; [|split]]]]]]; try done.
  - eexists. split; [done|]. by rewrite changedCount_setSeen.
  - by rewrite length_map.
  - intros i m Hi. exists (setSeen chat me m). split.
    + by rewrite list_lookup_fmap, Hi.
    + apply setSeen_spec.
  - simpl. by rewrite filter_unseen_after.
  - unfold exec. simpl. unfold apply_effect. simpl.
    rewrite map_map. f_equal. f_equal.
    apply map_ext. intros m. apply setSeen_idempotent.
Qed.

Lemma markSeen_flips_unseen_witness :
  ∃ n, fst (putSeen "64b7f0c2a1d3e4f5a6b7c8d2" "64b7f0c2a1d3e4f5a6b7c8d1" true
              (store {| store := tieDb; emitted := [] |})) = Success 200 n ∧
       n = changedCount (messages (store {| store := tieDb; emitted := [] |}))
             (messages (store (exec {| store := tieDb; emitted := [] |}
                (snd (putSeen "64b7f0c2a1d3e4f5a6b7c8d2" "64b7f0c2a1d3e4f5a6b7c8d1" true
                        (store {| store := tieDb; emitted := [] |})))))).
Proof.
  destruct (markSeen_flips_unseen "64b7f0c2a1d3e4f5a6b7c8d2"
              "64b7f0c2a1d3e4f5a6b7c8d1" {| store := tieDb; emitted := [] |})
    as (Hcount & _).
  exact Hcount.
Defined.

Example markSeen_example :
  fst (putSeen "64b7f0c2a1d3e4f5a6b7c8d2" "64b7f0c2a1d3e4f5a6b7c8d1" true tieDb)
  = Success 200 3%nat.
Proof. reflexivity. Qed.

(** *** Sending *)

Lemma postMessages_blank me body newId now now' createOk updateOk :
  Js.trim (default "" (b_text body)) = "" →
  postMessages me body newId now now' createOk updateOk
  = (Failure 400 "chatId, receiver, text required", []).
Proof.
  intros Ht. unfold postMessages. rewrite Ht. simpl.
  by rewrite !orb_true_r.
Qed.

Lemma routerPostMessage_blank isValid chat s r txt newId now now' saveOk updateOk :
  Js.trim (default "" txt) = "" →
  ∃ msg, routerPostMessage isValid chat s r txt newId now now' saveOk updateOk
         = (Failure 400 msg, []).
Proof.
  intros Ht. unfold routerPostMessage.
  destruct (negb (isValid chat) || negb (isValid s)); [by eexists|].
  rewrite Ht. simpl. rewrite orb_true_r. by eexists.
Qed.

(** Whatever [POST /messages] persists has a text that is not empty. *)
Lemma postMessages_never_blank me body newId now now' createOk updateOk m :
  MessageCreate m ∈ snd (postMessages me body newId now now' createOk updateOk) →
  text m = Js.trim (default "" (b_text body)) ∧ text m ≠ "".
Proof.
  unfold postMessages.
  destruct (Js.truthy (b_chatId body)), (Js.truthy (b_receiver body)),
    (Js.truthy (b_text body)); simpl; try (by intros ?%elem_of_nil).
  destruct (String.eqb_spec (Js.trim (default "" (b_text body))) "") as [He|He];
    simpl; [by intros ?%elem_of_nil|].
  destruct createOk; simpl; [|by intros ?%elem_of_nil].
  destruct updateOk; simpl; intros Hin.
  - apply elem_of_cons in Hin as [[= ->]|Hin]; [done|].
    repeat (apply elem_of_cons in Hin as [?|Hin]; [done|]).
    by apply elem_of_nil in Hin.
  - apply elem_of_cons in Hin as [[= ->]|Hin]; [done|]. by apply elem_of_nil in Hin.
Qed.

(** C9 at the controller: [sendMessage] of [messageController.js] tests
    [!text] only, so a text of three spaces, which trims to the empty
    string, is persisted as it is, written to the chat and emitted, with
    status 201; [POST /messages] of [server.mjs] and the router of
    [messageRoutes.js] answer 400 to the same body and persist nothing. *)
Theorem controller_persists_blank_text :
  let body := {| b_chatId := Some "64b7f0c2a1d3e4f5a6b7c8d1";
                 b_receiver := Some "64b7f0c2a1d3e4f5a6b7c8d2";
                 b_text := Some "   " |} in
  let me := "64b7f0c2a1d3e4f5a6b7c8d3" in
  let msg := {| mid := "64b7f0c2a1d3e4f5a6b7c8d4";
                chatId := "64b7f0c2a1d3e4f5a6b7c8d1"; sender := me;
                receiver := "64b7f0c2a1d3e4f5a6b7c8d2"; text := "   ";
                createdAt := 1000; seen := false |} in
  Js.trim "   " = "" ∧
  controllerSendMessage me body "64b7f0c2a1d3e4f5a6b7c8d4" 1000 1001 true true
  = (Success 201 msg,
     [ MessageCreate msg;
       ChatFindByIdAndUpdate "64b7f0c2a1d3e4f5a6b7c8d1" "   " 1001;
       IoEmit "64b7f0c2a1d3e4f5a6b7c8d2" "newMessage" (PMessage msg) ]) ∧
  messages (store (exec emptyWorld
    (snd (controllerSendMessage me body "64b7f0c2a1d3e4f5a6b7c8d4" 1000 1001 true true))))
  = [msg] ∧
  postMessages me body "64b7f0c2a1d3e4f5a6b7c8d4" 1000 1001 true true
  = (Failure 400 "chatId, receiver, text required", []) ∧
  routerPostMessage (λ _, true) "64b7f0c2a1d3e4f5a6b7c8d1" me
    "64b7f0c2a1d3e4f5a6b7c8d2" (Some "   ") "64b7f0c2a1d3e4f5a6b7c8d4" 1000 1001 true true
  = (Failure 400 "Message text cannot be empty.", []).
Proof. vm_compute. repeat split; reflexivity. Qed.

Lemma postMessages_success me body newId now now' createOk updateOk st msg :
  fst (postMessages me body newId now now' createOk updateOk) = Success st msg →
  ∃ chat to raw,
    b_chatId body = Some chat ∧ b_receiver body = Some to ∧ b_text body = Some raw ∧
    Js.trim raw ≠ "" ∧ st = 201%nat ∧
    msg = {| mid := newId; chatId := chat; sender := me; receiver := to;
             text := Js.trim raw; createdAt := now; seen := false |} ∧
    snd (postMessages me body newId now now' createOk updateOk)
    = [ MessageCreate msg;
        ChatFindByIdAndUpdate chat (Js.trim raw) now';
        IoEmit to "message:new" (PMessage msg);
        IoEmit me "message:new" (PMessage msg);
        IoEmit to "chat:updated" (PChatUpdated chat (Js.trim raw) now);
        IoEmit me "chat:updated" (PChatUpdated chat (Js.trim raw) now) ].
Proof.
  unfold postMessages.
  destruct (b_chatId body) as [chat|], (b_receiver body) as [to|],
    (b_text body) as [raw|]; simpl; rewrite ?orb_true_r; try done.
  destruct (String.eqb chat ""), (String.eqb to ""), (String.eqb raw "");
    simpl; try done.
  destruct (String.eqb_spec (Js.trim raw) "") as [He|He]; simpl; [done|].
  destruct createOk; simpl; [|done]. destruct updateOk; simpl; [|done].
  intros [= <- <-]. by exists chat, to, raw.
Qed.

Lemma postMessages_failure me body newId now now' createOk updateOk st err e :
  fst (postMessages me body newId now now' createOk updateOk) = Failure st err →
  e ∈ snd (postMessages me body newId now now' createOk updateOk) →
  ∃ m, e = MessageCreate m.
Proof.
  unfold postMessages.
  destruct (_ || _); simpl; [by intros _ ?%elem_of_nil|].
  destruct createOk; simpl; [|by intros _ ?%elem_of_nil].
  destruct updateOk; simpl; [done|].
  intros _ ->%list_elem_of_singleton. by eexists.
Qed.

(** C5. A successful [POST /messages] performs, in this order: the
    creation of the message, the update of the chat's last message and
    timestamp, the emission of [message:new] to the receiver's and to the
    sender's room, and the emission of [chat:updated] to both rooms.  In
    every outcome, whatever is emitted comes after the creation of the
    message and the update of the chat, and a message carried by an event
    is in the message store at the moment of the emission; a failed request
    emits nothing. *)
Theorem postMessages_persists_then_emits (me : string) (body : send_body)
    (newId : string) (now now' : Z) (createOk updateOk : bool) :
  let r := postMessages me body newId now now' createOk updateOk in
  (∀ st msg, fst r = Success st msg →
     st = 201%nat ∧
     snd r = [ MessageCreate msg;
               ChatFindByIdAndUpdate (chatId msg) (text msg) now';
               IoEmit (receiver msg) "message:new" (PMessage msg);
               IoEmit me "message:new" (PMessage msg);
               IoEmit (receiver msg) "chat:updated"
                 (PChatUpdated (chatId msg) (text msg) (createdAt msg));
               IoEmit me "chat:updated"
                 (PChatUpdated (chatId msg) (text msg) (createdAt msg)) ] ∧
     b_chatId body = Some (chatId msg) ∧ b_receiver body = Some (receiver msg) ∧
     sender msg = me) ∧
  (∀ pre room ev p post, snd r = pre ++ IoEmit room ev p :: post →
     ∃ m rest, pre = MessageCreate m :: ChatFindByIdAndUpdate (chatId m) (text m) now' :: rest ∧
       (∀ m', p = PMessage m' → m' = m) ∧
       ∀ w, m ∈ messages (store (exec w pre))) ∧
  (∀ st err room ev p, fst r = Failure st err → IoEmit room ev p ∉ snd r).
Proof.
  intros r. subst r. split; [|split].
  - intros st msg Hr. apply postMessages_success in Hr
      as (chat & to & raw & Hc & Ht & Hx & Hne & -> & -> & Heffs).
    by rewrite Heffs.
  - intros pre room ev p post Hsplit.
    destruct (fst (postMessages me body newId now now' createOk updateOk))
      as [st msg|st err] eqn:Hr.
    + apply postMessages_success in Hr
        as (chat & to & raw & Hc & Ht & Hx & Hne & -> & -> & Heffs).
      rewrite Heffs in Hsplit. clear Heffs.
      destruct pre as [|e1 [|e2 rest]]; simplify_eq/=.
      exists {| mid := newId; chatId := chat; sender := me; receiver := to;
                text := Js.trim raw; createdAt := now; seen := false |}, rest.
      split; [reflexivity|]. split.
      * repeat (destruct rest as [|? rest]; simplify_eq/=); by intros ? [= <-].
      * intros w. unfold exec. simpl.
        assert (Hin : ∀ effs w0 x, x ∈ messages (store w0) →
                  Forall (λ e, ∃ a b c, e = IoEmit a b c) effs →
                  x ∈ messages (store (foldl apply_effect w0 effs))).
        { induction effs as [|e effs IH]; intros w0 x Hx0 Hall; [done|].
          inversion Hall as [|? ? (a & b & c & ->) Hall']; subst.
          apply IH; [|done]. done. }
        apply Hin.
        -- simpl. apply elem_of_app. right. by apply list_elem_of_singleton.
        -- repeat (destruct rest as [|? rest]; simplify_eq/=);
             repeat constructor; by eexists _, _, _.
    + assert (Hin : IoEmit room ev p ∈ snd (postMessages me body newId now now' createOk updateOk)).
      { rewrite Hsplit. apply elem_of_app. right. apply elem_of_cons. by left. }
      by destruct (postMessages_failure _ _ _ _ _ _ _ _ _ _ Hr Hin).
  - intros st err room ev p Hr Hin.
    by destruct (postMessages_failure _ _ _ _ _ _ _ _ _ _ Hr Hin).
Qed.

Lemma postMessages_persists_then_emits_witness :
  snd (postMessages "64b7f0c2a1d3e4f5a6b7c8d3" helloBody "64b7f0c2a1d3e4f5a6b7c8d4"
         1000 1001 true true)
  = [ MessageCreate helloMessage;
      ChatFindByIdAndUpdate (chatId helloMessage) (text helloMessage) 1001;
      IoEmit (receiver helloMessage) "message:new" (PMessage helloMessage);
      IoEmit "64b7f0c2a1d3e4f5a6b7c8d3" "message:new" (PMessage helloMessage);
      IoEmit (receiver helloMessage) "chat:updated"
        (PChatUpdated (chatId helloMessage) (text helloMessage) (createdAt helloMessage));
      IoEmit "64b7f0c2a1d3e4f5a6b7c8d3" "chat:updated"
        (PChatUpdated (chatId helloMessage) (text helloMessage) (createdAt helloMessage)) ].
Proof.
  destruct (postMessages_persists_then_emits "64b7f0c2a1d3e4f5a6b7c8d3" helloBody
              "64b7f0c2a1d3e4f5a6b7c8d4" 1000 1001 true true) as (Hok & _).
  destruct (Hok 201%nat helloMessage) as (_ & Heffs & _); [reflexivity|].
  exact Heffs.
Defined.

Lemma setLastMessage_cid chat txt t c :
  cid (setLastMessage chat txt t c) = cid c ∧
  participants (setLastMessage chat txt t c) = participants c ∧
  (cid c = chat → lastMessage (setLastMessage chat txt t c) = txt).
Proof.
  unfold setLastMessage. destruct (String.eqb_spec (cid c) chat); naive_solver.
Qed.

(** C10. Every text [POST /messages] writes or sends, in every outcome,
    is the submitted text trimmed; after a successful request the new
    message, stored last, has that text, every chat with the message's
    chat id has it as [lastMessage], and the four events emitted carry it.
    The trimmed text is the submitted one without the white space at its
    two ends: it neither starts nor ends with white space. *)
Theorem postMessages_stores_trimmed_text (me : string) (body : send_body)
    (newId : string) (now now' : Z) (createOk updateOk : bool) :
  let r := postMessages me body newId now now' createOk updateOk in
  let raw := default "" (b_text body) in
  (∀ e t, e ∈ snd r → effectText e = Some t → t = Js.trim raw) ∧
  (∀ st msg, fst r = Success st msg →
     text msg = Js.trim raw ∧
     ∀ w,
       messages (store (exec w (snd r))) = messages (store w) ++ [msg] ∧
       (∀ c, c ∈ chats (store (exec w (snd r))) → cid c = chatId msg →
          lastMessage c = Js.trim raw) ∧
       ∃ new, emitted (exec w (snd r)) = emitted w ++ new ∧ length new = 4%nat ∧
         ∀ room ev p, (room, ev, p) ∈ new → payloadText p = Js.trim raw) ∧
  (∃ pre post,
     String.list_ascii_of_string raw
       = pre ++ String.list_ascii_of_string (Js.trim raw) ++ post ∧
     forallb Js.isWhiteSpace pre = true ∧
     forallb Js.isWhiteSpace post = true ∧
     (∀ c, head (String.list_ascii_of_string (Js.trim raw)) = Some c →
        Js.isWhiteSpace c = false) ∧
     (∀ c, last (String.list_ascii_of_string (Js.trim raw)) = Some c →
        Js.isWhiteSpace c = false)).
Proof.
  intros r raw. subst r raw. split; [|split; [|apply JsTheory.trim_spec]].
  - intros e t Hin Ht.
    destruct (fst (postMessages me body newId now now' createOk updateOk))
      as [st msg|st err] eqn:Hr.
    + apply postMessages_success in Hr
        as (chat & to & raw & Hc & Hrcv & Hx & Hne & -> & -> & Heffs).
      rewrite Heffs in Hin. rewrite Hx. simpl.
      repeat (apply elem_of_cons in Hin as [->|Hin]; [by simplify_eq/=|]).
      by apply elem_of_nil in Hin.
    + destruct (postMessages_failure _ _ _ _ _ _ _ _ _ _ Hr Hin) as [m ->].
      apply postMessages_never_blank in Hin as [Hm _]. by simplify_eq/=.
  - intros st msg Hr. apply postMessages_success in Hr
      as (chat & to & raw & Hc & Hrcv & Hx & Hne & -> & -> & Heffs).
    rewrite Heffs, Hx. simpl. split; [done|]. intros w.
    split; [done|]. split.
    + intros c Hin Hcid. apply list_elem_of_fmap in Hin as [c0 [-> Hin]].
      destruct (setLastMessage_cid chat (Js.trim raw) now' c0) as (Hid & _ & Hlast).
      apply Hlast. by rewrite <- Hid.
    + eexists. split; [by rewrite <- !app_assoc|].
      split; [done|]. intros room ev p Hin.
      repeat (apply elem_of_cons in Hin as [[= -> -> ->]|Hin]; [done|]).
      by apply elem_of_nil in Hin.
Qed.

Lemma postMessages_stores_trimmed_text_witness :
  text helloMessage = Js.trim "  hello ".
Proof.
  destruct (postMessages_stores_trimmed_text "64b7f0c2a1d3e4f5a6b7c8d3" helloBody
              "64b7f0c2a1d3e4f5a6b7c8d4" 1000 1001 true true) as (_ & Hok & _).
  destruct (Hok 201%nat helloMessage) as (Htext & _); [reflexivity|].
  exact Htext.
Defined.

End MessagingTheory.

(** ** Chats: ensuring the chat of a pair *)

Module ChatTheory.
Import Messaging.

Lemma findOneChat_Some a b cs c :
  findOneChat a b cs = Some c ↔
  ∃ i, cs !! i = Some c ∧ hasAll a b c ∧
       ∀ j c', cs !! j = Some c' → (j < i)%nat → ¬ hasAll a b c'.
Proof.
  unfold findOneChat. split.
  - intros [[i c'] [Hf ->]]%fmap_Some. apply list_find_Some in Hf. by exists i.
  - intros [i Hi]. apply fmap_Some. exists (i, c).
    split; [by apply list_find_Some|done].
Qed.

Lemma findOneChat_None a b cs :
  findOneChat a b cs = None ↔ ∀ c, c ∈ cs → ¬ hasAll a b c.
Proof.
  unfold findOneChat. rewrite fmap_None, list_find_None. apply Forall_forall.
Qed.

Lemma isPair_hasAll a b c : isPair a b c → hasAll a b c.
Proof. unfold isPair, hasAll. intros [->| ->]; set_solver. Qed.

Lemma hasAll_isPair x y a b c :
  participants c = [x; y] → a ≠ b → hasAll a b c → isPair a b c.
Proof.
  unfold isPair, hasAll. intros ->. intros Hne [Ha Hb].
  apply elem_of_cons in Ha as [->|Ha%list_elem_of_singleton];
    apply elem_of_cons in Hb as [->|Hb%list_elem_of_singleton]; naive_solver.
Qed.

Lemma hasAll_sym a b c : hasAll a b c ↔ hasAll b a c.
Proof. unfold hasAll. naive_solver. Qed.

Lemma isPair_sym a b c : isPair a b c ↔ isPair b a c.
Proof. unfold isPair. naive_solver. Qed.

(** In a well-formed store the chat of a pair is what the lookup finds. *)
Lemma wf_findOneChat cs a b c :
  chats_wf cs → c ∈ cs → isPair a b c → findOneChat a b cs = Some c.
Proof.
  intros Hwf [i Hi]%list_elem_of_lookup Hp. apply findOneChat_Some.
  exists i. split; [done|]. split; [by apply isPair_hasAll|].
  intros j c' Hj Hlt Hall.
  destruct (Hwf i c Hi) as (x & y & Hxy & Hearlier).
  apply (Hearlier j c' Hlt Hj).
  destruct Hp as [Hp|Hp]; rewrite Hp in Hxy; injection Hxy as <- <-;
    [done|by apply hasAll_sym].
Qed.

Lemma chats_wf_nil : chats_wf [].
Proof. intros i c Hi. by rewrite lookup_nil in Hi. Qed.

Lemma chats_wf_snoc cs a b c :
  chats_wf cs → participants c = [a; b] → findOneChat a b cs = None →
  chats_wf (cs ++ [c]).
Proof.
  intros Hwf Hc Hnone i c0 Hi.
  apply lookup_app_Some in Hi as [Hi|[Hlen Hi]].
  - destruct (Hwf i c0 Hi) as (x & y & Hxy & Hearlier).
    exists x, y. split; [done|]. intros j c' Hlt Hj.
    apply (Hearlier j c' Hlt). rewrite lookup_app_l in Hj; [done|].
    apply lookup_lt_Some in Hi. lia.
  - apply list_lookup_singleton_Some in Hi as [Hi <-].
    exists a, b. split; [done|]. intros j c' Hlt Hj.
    rewrite lookup_app_l in Hj by lia.
    eapply findOneChat_None; [done|]. by eapply list_elem_of_lookup_2.
Qed.

Lemma chats_wf_setLastMessage cs chat txt t :
  chats_wf cs → chats_wf (map (setLastMessage chat txt t) cs).
Proof.
  intros Hwf i c Hi. apply list_lookup_fmap_Some in Hi as (c0 & -> & Hi).
  destruct (Hwf i c0 Hi) as (x & y & Hxy & Hearlier).
  destruct (MessagingTheory.setLastMessage_cid chat txt t c0) as (_ & Hp & _).
  exists x, y. split; [by rewrite Hp|].
  intros j c' Hlt Hj. apply list_lookup_fmap_Some in Hj as (c1 & -> & Hj).
  destruct (MessagingTheory.setLastMessage_cid chat txt t c1) as (_ & Hp1 & _).
  unfold hasAll. rewrite Hp1. by apply (Hearlier j c1 Hlt).
Qed.

Lemma chatsEnsure_wf me w newId now findOk createOk d :
  chats_wf (chats d) →
  ∀ wd, store wd = d →
  chats_wf (chats (store (exec wd (snd (chatsEnsure me w newId now findOk createOk d))))).
Proof.
  intros Hwf wd <-. unfold chatsEnsure.
  destruct (negb (Js.truthy w)); [done|]. destruct (negb findOk); [done|].
  destruct (findOneChat _ _ _) eqn:Hf; [done|].
  destruct (negb createOk); [done|]. simpl. by eapply chats_wf_snoc.
Qed.

Lemma routerPostChat_wf u1 u2 newId now findOk saveOk d :
  chats_wf (chats d) →
  ∀ wd, store wd = d →
  chats_wf (chats (store (exec wd (snd (routerPostChat u1 u2 newId now findOk saveOk d))))).
Proof.
  intros Hwf wd <-. unfold routerPostChat.
  destruct (_ || _); [done|]. destruct (negb findOk); [done|].
  destruct (findOneChat _ _ _) eqn:Hf; [done|].
  destruct (negb saveOk); [done|]. simpl. by eapply chats_wf_snoc.
Qed.

Lemma handle_wf w r :
  chats_wf (chats (store w)) → chats_wf (chats (store (handle w r))).
Proof.
  intros Hwf. unfold handle. destruct r; simpl.
  - by apply chatsEnsure_wf.
  - by apply routerPostChat_wf.
  - unfold postMessages. destruct (_ || _); [done|].
    destruct (negb createOk); [done|]. destruct (negb updateOk); [done|].
    simpl. by apply chats_wf_setLastMessage.
  - unfold controllerSendMessage. destruct (_ || _); [done|].
    destruct (negb createOk); [done|]. destruct (negb updateOk); [done|].
    simpl. by apply chats_wf_setLastMessage.
  - unfold routerPostMessage. destruct (_ || _); [done|].
    destruct (_ || _); [done|].
    destruct (negb saveOk); [done|]. destruct (negb updateOk); [done|].
    simpl. by apply chats_wf_setLastMessage.
  - unfold putSeen. by destruct (negb updateOk).
Qed.

Lemma serve_wf rs : ∀ w,
  chats_wf (chats (store w)) → chats_wf (chats (store (serve rs w))).
Proof.
  induction rs as [|r rs IH]; intros w Hwf; [done|].
  simpl. apply IH. by apply handle_wf.
Qed.

(** The router of [chatRoutes.js] takes the same decision as
    [POST /chats/ensure]. *)
Lemma routerPostChat_chatsEnsure a b newId now d :
  a ≠ "" → b ≠ "" →
  routerPostChat (Some a) (Some b) newId now true true d
  = chatsEnsure a (Some b) newId now true true d.
Proof.
  intros Ha Hb. unfold routerPostChat, chatsEnsure. simpl.
  destruct (String.eqb_spec a ""); [done|].
  destruct (String.eqb_spec b ""); [done|]. simpl.
  by destruct (findOneChat a b (chats d)).
Qed.

(** C8. In every store reached by serving requests, [POST /chats/ensure]
    for a pair answers with the chat of that pair when there is one, in
    whichever order the two ids are given, and then writes nothing; it
    creates a chat only when the pair has none, and then exactly one, with
    the two ids as participants, appended to the chats; a second call
    answers with the chat of the first call and writes nothing; and for two
    distinct ids a pair without a chat gets one.  The router of
    [chatRoutes.js] answers and writes the same. *)
Theorem chatsEnsure_idempotent (rs : list request) (me other : string)
    (newId newId' : string) (now now' : Z) :
  me ≠ "" → other ≠ "" →
  let w := serve rs emptyWorld in
  let r1 := chatsEnsure me (Some other) newId now true true (store w) in
  let w1 := exec w (snd r1) in
  (∀ c, c ∈ chats (store w) → isPair me other c →
     r1 = (Success 200 c, []) ∧
     chatsEnsure other (Some me) newId now true true (store w) = (Success 200 c, [])) ∧
  (snd r1 ≠ [] →
     (∀ c, c ∈ chats (store w) → ¬ isPair me other c) ∧
     ∃ c, participants c = [me; other] ∧ r1 = (Success 200 c, [ChatCreate c]) ∧
          chats (store w1) = chats (store w) ++ [c] ∧
          messages (store w1) = messages (store w)) ∧
  (∃ c, fst r1 = Success 200 c ∧ c ∈ chats (store w1) ∧
        chatsEnsure me (Some other) newId' now' true true (store w1)
        = (Success 200 c, [])) ∧
  (me ≠ other → (∀ c, c ∈ chats (store w) → ¬ isPair me other c) →
     ∃ c, participants c = [me; other] ∧ snd r1 = [ChatCreate c]) ∧
  routerPostChat (Some me) (Some other) newId now true true (store w) = r1.
Proof.
  intros Hme Hother w r1 w1.
  assert (Hwf : chats_wf (chats (store w))) by apply serve_wf, chats_wf_nil.
  assert (Hform : ∀ a b id t d, a ≠ "" → b ≠ "" →
    chatsEnsure a (Some b) id t true true d =
      match findOneChat a b (chats d) with
      | Some chat => (Success 200 chat, [])
      | None =>
          (Success 200 {| cid := id; participants := [a; b];
                          lastMessage := ""; updatedAt := t |},
           [ChatCreate {| cid := id; participants := [a; b];
                          lastMessage := ""; updatedAt := t |}])
      end).
  { intros a b id t d Ha Hb. unfold chatsEnsure. simpl.
    destruct (String.eqb_spec b ""); [done|]. simpl.
    by destruct (findOneChat a b (chats d)). }
  subst r1 w1. rewrite routerPostChat_chatsEnsure by done. rewrite !Hform by done.
  split; [|split; [|split; [|split; [|done]]]].
  - intros c Hin Hp.
    rewrite (wf_findOneChat _ _ _ c Hwf Hin Hp).
    apply isPair_sym in Hp. by rewrite (wf_findOneChat _ _ _ c Hwf Hin Hp).
  - destruct (findOneChat me other (chats (store w))) as [c|] eqn:Hf; [done|].
    intros _. split.
    + intros c Hin Hp. apply isPair_hasAll in Hp.
      by eapply findOneChat_None.
    + by exists {| cid := newId; participants := [me; other];
                   lastMessage := ""; updatedAt := now |}.
  - destruct (findOneChat me other (chats (store w))) as [c|] eqn:Hf.
    + exists c. simpl. rewrite Hf. split; [done|]. split; [|done].
      apply findOneChat_Some in Hf as (i & Hi & _). by eapply list_elem_of_lookup_2.
    + eexists. split; [done|]. simpl. split.
      * apply elem_of_app. right. by apply list_elem_of_singleton.
      * unfold findOneChat in *. apply fmap_None in Hf.
        rewrite (list_find_app_r _ _ _ Hf). simpl.
        rewrite decide_True; [done|]. unfold hasAll. simpl. set_solver.
  - intros Hne Hnone.
    destruct (findOneChat me other (chats (store w))) as [c|] eqn:Hf;
      [|by exists {| cid := newId; participants := [me; other];
                     lastMessage := ""; updatedAt := now |}].
    exfalso. apply findOneChat_Some in Hf as (i & Hi & Hall & _).
    destruct (Hwf i c Hi) as (x & y & Hxy & _).
    apply (Hnone c); [by eapply list_elem_of_lookup_2|].
    by eapply hasAll_isPair.
Qed.

Lemma chatsEnsure_idempotent_witness :
  ∃ c, participants c = ["64b7f0c2a1d3e4f5a6b7c8d3"; "64b7f0c2a1d3e4f5a6b7c8d2"] ∧
       snd (chatsEnsure "64b7f0c2a1d3e4f5a6b7c8d3" (Some "64b7f0c2a1d3e4f5a6b7c8d2")
              "64b7f0c2a1d3e4f5a6b7c8d1" 500 true true (store (serve [] emptyWorld)))
       = [ChatCreate c].
Proof.
  assert (Hme : "64b7f0c2a1d3e4f5a6b7c8d3" ≠ "") by discriminate.
  assert (Hother : "64b7f0c2a1d3e4f5a6b7c8d2" ≠ "") by discriminate.
  assert (Hne : "64b7f0c2a1d3e4f5a6b7c8d3" ≠ "64b7f0c2a1d3e4f5a6b7c8d2") by discriminate.
  destruct (chatsEnsure_idempotent [] "64b7f0c2a1d3e4f5a6b7c8d3"
              "64b7f0c2a1d3e4f5a6b7c8d2" "64b7f0c2a1d3e4f5a6b7c8d1"
              "64b7f0c2a1d3e4f5a6b7c8d4" 500 600 Hme Hother) as (_ & _ & _ & Hnew & _).
  assert (Hnone : ∀ c, c ∈ chats (store (serve [] emptyWorld)) →
            ¬ isPair "64b7f0c2a1d3e4f5a6b7c8d3" "64b7f0c2a1d3e4f5a6b7c8d2" c).
  { intros c Hin. by apply elem_of_nil in Hin. }
  exact (Hnew Hne Hnone).
Defined.

(** For a user paired with itself the lookup [$all: [a, a]] matches any
    chat of the user: [a]'s chat with someone else is returned and no chat
    is created. *)
Example chatsEnsure_self :
  chatsEnsure "64b7f0c2a1d3e4f5a6b7c8d3" (Some "64b7f0c2a1d3e4f5a6b7c8d3")
    "64b7f0c2a1d3e4f5a6b7c8d5" 600 true true {| messages := []; chats := [oneChat] |}
  = (Success 200 oneChat, []).
Proof. reflexivity. Qed.

End ChatTheory.

(** ** Message history: [GET /messages/:chatId] *)

Module HistoryTheory.
Import Messaging.

Lemma insertDesc_perm x l : insertDesc x l ≡ₚ x :: l.
Proof.
  induction l as [|y l IH]; simpl; [done|].
  destruct (createdAt y <=? createdAt x)%Z; [done|].
  rewrite IH. apply Permutation_swap.
Qed.

Lemma sortDesc_perm l : sortDesc l ≡ₚ l.
Proof.
  induction l as [|x l IH]; simpl; [done|]. by rewrite insertDesc_perm, IH.
Qed.

Lemma sortDesc_length l : length (sortDesc l) = length l.
Proof. apply Permutation_length, sortDesc_perm. Qed.

Lemma insertDesc_sorted x l :
  StronglySorted newer_eq l → StronglySorted newer_eq (insertDesc x l).
Proof.
  induction l as [|y l IH]; simpl; intros Hs.
  - repeat constructor.
  - apply StronglySorted_cons in Hs as [Hy Hs].
    destruct (Z.leb_spec (createdAt y) (createdAt x)) as [Hle|Hlt].
    + apply StronglySorted_cons. split; [|by apply StronglySorted_cons].
      constructor; [done|]. eapply Forall_impl; [exact Hy|].
      unfold newer_eq. intros z Hz. simpl in Hz. lia.
    + apply StronglySorted_cons. split; [|by apply IH].
      rewrite insertDesc_perm. constructor; [unfold newer_eq; lia|done].
Qed.

Lemma sortDesc_sorted l : StronglySorted newer_eq (sortDesc l).
Proof.
  induction l as [|x l IH]; simpl; [constructor|]. by apply insertDesc_sorted.
Qed.

Lemma insertDesc_front x l :
  Forall (newer_eq x) l → insertDesc x l = x :: l.
Proof.
  destruct l as [|y l]; [done|]. intros Hx. simpl.
  apply Forall_cons in Hx as [Hy _]. unfold newer_eq in Hy.
  by destruct (Z.leb_spec (createdAt y) (createdAt x)); [|lia].
Qed.

Lemma Forall_filter (P : Message → Prop) (f : Message → bool) l :
  Forall P l → Forall P (List.filter f l).
Proof.
  induction 1 as [|x l Hx Hl IH]; simpl; [constructor|].
  destruct (f x); [by constructor|done].
Qed.

Lemma insertDesc_filter (f : Message → bool) x l :
  StronglySorted newer_eq l →
  List.filter f (insertDesc x l)
  = if f x then insertDesc x (List.filter f l) else List.filter f l.
Proof.
  induction l as [|y l IH]; simpl; intros Hs; [by destruct (f x)|].
  apply StronglySorted_cons in Hs as [Hy Hs].
  destruct (Z.leb_spec (createdAt y) (createdAt x)) as [Hle|Hlt]; simpl.
  - destruct (f x) eqn:Hfx; [|done].
    rewrite insertDesc_front; [done|].
    assert (Hall : Forall (newer_eq x) (y :: l)).
    { constructor; [done|]. eapply Forall_impl; [exact Hy|].
      unfold newer_eq. intros z Hz. simpl in Hz. lia. }
    change (Forall (newer_eq x) (List.filter f (y :: l))). by apply Forall_filter.
  - rewrite IH by done. destruct (f x), (f y); simpl; try done.
    by destruct (Z.leb_spec (createdAt y) (createdAt x)); [lia|].
Qed.

(** Sorting commutes with filtering. *)
Lemma sortDesc_filter (f : Message → bool) l :
  sortDesc (List.filter f l) = List.filter f (sortDesc l).
Proof.
  induction l as [|x l IH]; simpl; [done|].
  rewrite insertDesc_filter by apply sortDesc_sorted.
  destruct (f x); simpl; by rewrite IH.
Qed.

Lemma filter_filter (f g : Message → bool) l :
  List.filter g (List.filter f l) = List.filter (λ m, f m && g m) l.
Proof.
  induction l as [|x l IH]; simpl; [done|].
  destruct (f x); simpl; [destruct (g x)|]; by rewrite IH.
Qed.

Lemma filter_all (f : Message → bool) l :
  (∀ m, m ∈ l → f m = true) → List.filter f l = l.
Proof.
  induction l as [|x l IH]; simpl; intros H; [done|].
  rewrite H by (by left). f_equal. apply IH. intros m Hm. apply H. by right.
Qed.

Lemma filter_none (f : Message → bool) l :
  (∀ m, m ∈ l → f m = false) ↔ List.filter f l = [].
Proof.
  induction l as [|x l IH]; simpl.
  - split; [done|]. by intros _ m ?%elem_of_nil.
  - destruct (f x) eqn:Hx.
    + split; [|done]. intros H. specialize (H x). rewrite Hx in H.
      discriminate H. by left.
    + rewrite <- IH. split.
      * intros H m Hm. apply H. by right.
      * intros H m [->|Hm]%elem_of_cons; [done|by apply H].
Qed.

Lemma elem_of_filter (f : Message → bool) l m :
  m ∈ List.filter f l ↔ m ∈ l ∧ f m = true.
Proof. rewrite !list_elem_of_In. apply filter_In. Qed.

Lemma elem_of_take_1 {A} (x : A) n l : x ∈ take n l → x ∈ l.
Proof. apply subseteq_take. Qed.

Lemma elem_of_rev {A} (x : A) l : x ∈ rev l ↔ x ∈ l.
Proof. by rewrite !list_elem_of_In, <- in_rev. Qed.

Lemma StronglySorted_rev l :
  StronglySorted newer_eq l → StronglySorted older_eq (rev l).
Proof.
  induction l as [|x l IH]; simpl; intros Hs; [constructor|].
  apply StronglySorted_cons in Hs as [Hx Hs].
  apply StronglySorted_app. split; [|split; [by apply IH|repeat constructor]].
  intros a b Ha ->%list_elem_of_singleton.
  rewrite elem_of_rev in Ha. rewrite Forall_forall in Hx.
  specialize (Hx a Ha). exact Hx.
Qed.

Lemma effectiveLimit_nonzero limit : effectiveLimit limit ≠ 0%Z.
Proof.
  unfold effectiveLimit. destruct limit as [| |n]; try lia.
  destruct (Z.eqb_spec n 0); lia.
Qed.

Lemma cursorLimit_effective {A} limit (l : list A) :
  cursorLimit (effectiveLimit limit) l
  = take (Z.to_nat (Z.abs (effectiveLimit limit))) l.
Proof.
  unfold cursorLimit. pose proof (effectiveLimit_nonzero limit).
  by destruct (Z.eqb_spec (effectiveLimit limit) 0).
Qed.

(** A successful query: the matching messages, newest first, cut to the
    limit, reversed. *)
Lemma page_eq chat before limit d :
  before ≠ BeforeInvalid →
  getMessages chat before limit true d
  = Success 200
      (rev (take (Z.to_nat (Z.abs (effectiveLimit limit)))
              (sortDesc (List.filter (matchesQuery chat before) (messages d))))).
Proof.
  intros Hb. unfold getMessages.
  destruct before; [|done|]; simpl; by rewrite cursorLimit_effective.
Qed.

(** A page ends where the rest of the sorted list begins: everything on
    the page is at least as new as its oldest message, everything after the
    page at most as new. *)
Lemma page_boundary D n first rest :
  StronglySorted newer_eq D →
  rev (take n D) = first :: rest →
  (∀ m, m ∈ take n D → (createdAt first ≤ createdAt m)%Z) ∧
  (∀ m, m ∈ drop n D → (createdAt m ≤ createdAt first)%Z) ∧
  first ∈ take n D.
Proof.
  intros Hs Hrev.
  assert (Htake : take n D = rev rest ++ [first]).
  { apply (f_equal (@rev _)) in Hrev. by rewrite rev_involutive in Hrev. }
  rewrite <- (take_drop n D), Htake in Hs.
  apply StronglySorted_app in Hs as (Hcross & Hpage & _).
  apply StronglySorted_app in Hpage as (Hfirst & _ & _).
  assert (Hin : first ∈ rev rest ++ [first]).
  { apply elem_of_app. right. by apply list_elem_of_singleton. }
  rewrite Htake. split; [|split; [|done]].
  - intros m [Hm|Hm%list_elem_of_singleton]%elem_of_app; [|subst; lia].
    apply (Hfirst m first Hm). by apply list_elem_of_singleton.
  - intros m Hm. by apply (Hcross first m).
Qed.

(** C6, as the code has it.  A query with a valid or absent [before]
    succeeds.  Its page has at most [min(limit, 100)] messages for a
    positive [limit], and at most 50 when [limit] is absent, not a number
    or zero; it is sorted by [createdAt] ascending, holds messages of the
    chat only, all created strictly before [before] when that is given.
    The page asked next with [before] set to the [createdAt] of the first
    (earliest) message of this page holds strictly older messages only, so
    the two pages share no message; and when no other message matching the
    first query has that earliest [createdAt], the second page followed by
    the first is a contiguous end of the chat's history in ascending
    order. *)
Theorem getMessages_pages (chat : string) (before : query_before)
    (limit limit2 : query_limit) (d : db) :
  before ≠ BeforeInvalid →
  let history := rev (sortDesc (List.filter (matchesQuery chat before) (messages d))) in
  let p := page (getMessages chat before limit true d) in
  getMessages chat before limit true d = Success 200 p ∧
  (∀ n, limit = LimitNum n → (0 < n)%Z → (Z.of_nat (length p) ≤ Z.min n 100)%Z) ∧
  (limit = LimitAbsent ∨ limit = LimitNaN ∨ limit = LimitNum 0 → (length p ≤ 50)%nat) ∧
  StronglySorted older_eq p ∧
  (∀ m, m ∈ p → m ∈ messages d ∧ chatId m = chat) ∧
  (∀ t, before = BeforeDate t → ∀ m, m ∈ p → (createdAt m < t)%Z) ∧
  (∀ first rest, p = first :: rest →
     let p2 := page (getMessages chat (BeforeDate (createdAt first)) limit2 true d) in
     (∀ m, m ∈ p2 → ∀ m', m' ∈ p → (createdAt m < createdAt m')%Z) ∧
     (∀ m, m ∈ p2 → m ∉ p) ∧
     (length (List.filter (λ m, (createdAt m =? createdAt first)%Z)
                (List.filter (matchesQuery chat before) (messages d))) = 1%nat →
      ∃ older, history = older ++ p2 ++ p)).
Proof.
  intros Hb history p. subst history p.
  rewrite (page_eq chat before limit d Hb). cbn [page].
  set (F := List.filter (matchesQuery chat before) (messages d)).
  set (D := sortDesc F).
  set (n := Z.to_nat (Z.abs (effectiveLimit limit))).
  assert (HD : StronglySorted newer_eq D) by apply sortDesc_sorted.
  assert (HinD : ∀ m, m ∈ D → m ∈ messages d ∧ matchesQuery chat before m = true).
  { intros m Hm. apply elem_of_filter. fold F. by rewrite <- (sortDesc_perm F). }
  assert (Hpage : ∀ m, m ∈ rev (take n D) → m ∈ D).
  { intros m Hm. rewrite elem_of_rev in Hm. by eapply elem_of_take_1. }
  split; [done|]. split; [|split; [|split; [|split; [|split]]]].
  - intros k -> Hk. rewrite length_rev, length_take. subst n.
    unfold effectiveLimit. destruct (Z.eqb_spec k 0); lia.
  - intros Hl. rewrite length_rev, length_take.
    assert (Hn : n = 50%nat) by (subst n; by destruct Hl as [->|[->| ->]]).
    lia.
  - apply StronglySorted_rev. rewrite <- (take_drop n D) in HD.
    by apply StronglySorted_app_1_l in HD.
  - intros m Hm. destruct (HinD m (Hpage m Hm)) as [Hin Hq].
    split; [done|]. unfold matchesQuery in Hq.
    apply andb_true_iff in Hq as [Hc _]. by apply String.eqb_eq.
  - intros t -> m Hm. destruct (HinD m (Hpage m Hm)) as [_ Hq].
    unfold matchesQuery in Hq. apply andb_true_iff in Hq as [_ Ht]. lia.
  - intros first rest Hp. cbv zeta.
    rewrite (page_eq chat (BeforeDate (createdAt first)) limit2 d) by done.
    cbn [page].
    set (n2 := Z.to_nat (Z.abs (effectiveLimit limit2))).
    set (older_than := λ m : Message, (createdAt m <? createdAt first)%Z).
    destruct (page_boundary D n first rest HD Hp) as (Hge & Hle & Hfirst).
    assert (HF2 : List.filter (matchesQuery chat (BeforeDate (createdAt first))) (messages d)
                  = List.filter older_than F).
    { subst F. rewrite filter_filter. apply filter_ext. intros m.
      unfold matchesQuery, older_than.
      destruct (HinD first (elem_of_take_1 _ _ _ Hfirst)) as [_ Hq].
      unfold matchesQuery in Hq. apply andb_true_iff in Hq as [_ Hq].
      destruct before as [| |t0]; [by rewrite andb_true_r|done|].
      destruct (String.eqb (chatId m) chat); simpl; [|done].
      destruct (Z.ltb_spec (createdAt m) (createdAt first)),
        (Z.ltb_spec (createdAt m) t0); try done. lia. }
    rewrite HF2, sortDesc_filter. fold D.
    assert (HD2 : List.filter older_than D = List.filter older_than (drop n D)).
    { rewrite <- (take_drop n D) at 1. rewrite List.filter_app.
      replace (List.filter older_than (take n D)) with (@nil Message); [done|].
      symmetry. apply filter_none. intros m Hm. apply Hge in Hm.
      unfold older_than. lia. }
    assert (Hp2 : ∀ m, m ∈ rev (take n2 (List.filter older_than D)) →
              (createdAt m < createdAt first)%Z).
    { intros m Hm. rewrite elem_of_rev in Hm.
      apply elem_of_take_1, elem_of_filter in Hm as [_ Hm].
      unfold older_than in Hm. lia. }
    assert (Hp1 : ∀ m, m ∈ rev (take n D) → (createdAt first ≤ createdAt m)%Z).
    { intros m Hm. apply Hge. by rewrite elem_of_rev in Hm. }
    split; [|split].
    + intros m Hm m' Hm'. apply Hp2 in Hm. apply Hp1 in Hm'. lia.
    + intros m Hm Hm'. apply Hp2 in Hm. apply Hp1 in Hm'. lia.
    + intros Hone.
      assert (Hrest : List.filter older_than (drop n D) = drop n D).
      { apply filter_all. intros m Hm. pose proof (Hle m Hm) as Hm_le.
        unfold older_than. apply Z.ltb_lt.
        destruct (Z.eq_dec (createdAt m) (createdAt first)) as [Heq|]; [|lia].
        exfalso.
        set (same := λ m : Message, (createdAt m =? createdAt first)%Z) in *.
        assert (Hcount : length (List.filter same D) = 1%nat).
        { subst D. by rewrite <- sortDesc_filter, sortDesc_length. }
        rewrite <- (take_drop n D), List.filter_app, length_app in Hcount.
        assert (H1 : first ∈ List.filter same (take n D)).
        { apply elem_of_filter. split; [done|]. apply Z.eqb_refl. }
        assert (H2 : m ∈ List.filter same (drop n D)).
        { apply elem_of_filter. split; [done|]. by apply Z.eqb_eq. }
        destruct (List.filter same (take n D)); [by apply elem_of_nil in H1|].
        destruct (List.filter same (drop n D)); [by apply elem_of_nil in H2|].
        simpl in Hcount. lia. }
      rewrite HD2, Hrest.
      exists (rev (drop n2 (drop n D))).
      rewrite <- !rev_app_distr. f_equal.
      by rewrite <- app_assoc, !take_drop.
Qed.

Lemma getMessages_pages_witness :
  ∃ older,
    rev (sortDesc (List.filter (matchesQuery "64b7f0c2a1d3e4f5a6b7c8d1" BeforeAbsent)
                     (messages historyDb)))
    = older
      ++ page (getMessages "64b7f0c2a1d3e4f5a6b7c8d1"
                 (BeforeDate (createdAt (tieMessage "64b7f0c2a1d3e4f5a6b7c8e3" 3000)))
                 (LimitNum 2) true historyDb)
      ++ page (getMessages "64b7f0c2a1d3e4f5a6b7c8d1" BeforeAbsent (LimitNum 2) true
                 historyDb).
Proof.
  assert (Hb : BeforeAbsent ≠ BeforeInvalid) by discriminate.
  destruct (getMessages_pages "64b7f0c2a1d3e4f5a6b7c8d1" BeforeAbsent
              (LimitNum 2) (LimitNum 2) historyDb Hb) as (_ & _ & _ & _ & _ & _ & Hnext).
  destruct (Hnext (tieMessage "64b7f0c2a1d3e4f5a6b7c8e3" 3000)
              [tieMessage "64b7f0c2a1d3e4f5a6b7c8e4" 4000] eq_refl)
    as (_ & _ & Hgap).
  exact (Hgap eq_refl).
Defined.

(** C6, as stated, fails twice.  With [limit=0] the handler falls back to
    50 and returns all three messages, more than [min(0, 100)].  With two
    messages created in the same millisecond, the page of two that ends at
    one of them is followed, for [before] set to its earliest timestamp, by
    an empty page: the other message of that millisecond is on neither
    page. *)
Lemma getMessages_zero_limit_and_tie_gap :
  let chat := "64b7f0c2a1d3e4f5a6b7c8d1" in
  let m1 := tieMessage "64b7f0c2a1d3e4f5a6b7c8e1" 1000 in
  let m2 := tieMessage "64b7f0c2a1d3e4f5a6b7c8e2" 1000 in
  let m3 := tieMessage "64b7f0c2a1d3e4f5a6b7c8e3" 2000 in
  let p0 := page (getMessages chat BeforeAbsent (LimitNum 0) true tieDb) in
  let p1 := page (getMessages chat BeforeAbsent (LimitNum 2) true tieDb) in
  let p2 := page (getMessages chat (BeforeDate 1000) (LimitNum 2) true tieDb) in
  (length p0 = 3%nat ∧ ¬ (Z.of_nat (length p0) ≤ Z.min 0 100)%Z) ∧
  (p1 = [m1; m3] ∧ p2 = [] ∧
   m2 ∈ messages tieDb ∧ chatId m2 = chat ∧ m2 ∉ p2 ++ p1).
Proof.
  vm_compute. split; [split; [reflexivity|by intros H]|].
  split; [reflexivity|]. split; [reflexivity|].
  split; [apply elem_of_cons; right; apply elem_of_cons; by left|].
  split; [reflexivity|].
  intros Hin.
  repeat (apply elem_of_cons in Hin as [Heq|Hin]; [discriminate Heq|]).
  by apply elem_of_nil in Hin.
Qed.

End HistoryTheory.

(** * Further properties of the code *)

(** ** Sweeps, logout and the gates that read the blacklist *)

Module SessionTheory.
Import Revocation Auth Session.

Lemma blacklist_eq (b1 b2 : blacklist) :
  inMemoryBlacklist b1 = inMemoryBlacklist b2 → redisSent b1 = redisSent b2 → b1 = b2.
Proof. destruct b1, b2. simpl. by intros -> ->. Qed.

(** A sweep at time [now] deletes exactly the entries whose expiry is not
    after [now] and changes no expiry; two sweeps in a row are one sweep at
    the later of the two times, so sweeps commute and repeating one changes
    nothing. *)
Theorem sweep_keeps_unexpired (t1 t2 : Z) (bl : blacklist) :
  (∀ token exp, revokedUntil token (sweep t1 bl) = Some exp ↔
                revokedUntil token bl = Some exp ∧ (t1 < exp)%Z) ∧
  sweep t2 (sweep t1 bl) = sweep (Z.max t1 t2) bl ∧
  sweep t2 (sweep t1 bl) = sweep t1 (sweep t2 bl) ∧
  sweep t1 (sweep t1 bl) = sweep t1 bl.
Proof.
  assert (Hcomp : ∀ a b, sweep b (sweep a bl) = sweep (Z.max a b) bl).
  { intros a b. apply blacklist_eq; [|done]. simpl.
    apply map_eq. intros k. apply option_eq. intros v.
    rewrite !map_lookup_filter_Some. simpl. split; [intros [[? ?] ?]|intros [? ?]].
    - split; [done|lia].
    - split; [split; [done|lia]|lia]. }
  split; [|split; [|split]].
  - intros token exp. apply RevocationTheory.revokedUntil_sweep.
  - apply Hcomp.
  - rewrite !Hcomp. by rewrite Z.max_comm.
  - rewrite Hcomp. by rewrite Z.max_id.
Qed.

Lemma logout_with_token useRedis now req bl token :
  extractTokenFromRequest req = Some token → token ≠ "" →
  logout useRedis now req bl = blacklistToken useRedis now token 86400 bl.
Proof.
  intros Hx Hne. unfold logout. rewrite Hx. simpl.
  by destruct (String.eqb_spec token "").
Qed.

(** After a logout that presents a token (in-memory blacklist), and as long
    as no sweep runs at or after the 24 hours and the token is not
    blacklisted again, every gate turns the token away with "Token
    revoked", whether or not it still verifies: the REST middleware, the
    socket handshake, and the uploads route, which sends no file. *)
Theorem logout_closes_every_gate (e : env) (now : Z) (req : request)
    (h : handshake) (token : string) (bl : blacklist) (ops : list op)
    (fileExists : string → bool) (filename : string) :
  useRedis e = false →
  extractTokenFromRequest req = Some token → token ≠ "" →
  handshakeToken h = token →
  Forall (keeps token (now + 86400 * 1000)%Z) ops →
  let bl' := run ops (logout false now req bl) in
  auth e bl' req = Reject "Token revoked" ∧
  socketAuth e bl' h = Reject "Token revoked" ∧
  ∀ served, serveUpload false fileExists e bl' filename req ≠ SendFile served.
Proof.
  intros Hmem Hx Hne Hh Hops bl'.
  assert (Hrev : blacklisted e bl' token = Some true).
  { unfold blacklisted. rewrite Hmem. f_equal.
    apply RevocationTheory.isRevoked_revokedUntil. subst bl'.
    rewrite (logout_with_token _ _ _ _ token Hx Hne).
    erewrite RevocationTheory.keeps_run; [done|done|].
    by apply RevocationTheory.blacklistToken_revokes. }
  split; [|split].
  - rewrite (AuthTheory.auth_on_token e bl' req token Hx Hne). by rewrite Hrev.
  - rewrite AuthTheory.socketAuth_on_token by (by rewrite Hh). by rewrite Hh, Hrev.
  - intros served. unfold serveUpload.
    destruct (String.eqb filename ""); [done|].
    destruct (_ || _); [done|]. destruct (negb (fileExists filename)); [done|].
    rewrite Hx. simpl. destruct (String.eqb_spec token ""); [done|].
    simpl. by rewrite Hrev.
Qed.

Lemma logout_closes_every_gate_witness :
  auth envNothingVerifies
    (run [Sweep 1000]
       (logout false 0 {| authorization := "Bearer abc"; accessTokenCookie := None |}
          emptyBlacklist))
    {| authorization := "Bearer abc"; accessTokenCookie := None |}
  = Reject "Token revoked".
Proof.
  assert (Hne : "abc" ≠ "") by discriminate.
  assert (Hops : Forall (keeps "abc" (0 + 86400 * 1000)%Z) [Sweep 1000]).
  { apply Forall_cons; split; [simpl; lia|apply Forall_nil_2]. }
  destruct (logout_closes_every_gate envNothingVerifies 0
              {| authorization := "Bearer abc"; accessTokenCookie := None |}
              {| authToken := Some "abc"; headerAuthorization := None |}
              "abc" emptyBlacklist [Sweep 1000] (λ _, true) "a.png"
              eq_refl eq_refl Hne eq_refl Hops) as (Hauth & _).
  exact Hauth.
Defined.

(** A logout touches the entry of the presented token only: without a
    token the blacklist is unchanged, and with one every other token keeps
    its entry, or its absence, as it was. *)
Theorem logout_other_tokens_untouched (useRedis : bool) (now : Z) (req : request)
    (bl : blacklist) :
  (Js.truthy (extractTokenFromRequest req) = false →
     logout useRedis now req bl = bl) ∧
  (∀ other, extractTokenFromRequest req ≠ Some other →
     revokedUntil other (logout useRedis now req bl) = revokedUntil other bl).
Proof.
  split.
  - intros Hf. unfold logout. by rewrite Hf.
  - intros other Hother. unfold logout.
    destruct (extractTokenFromRequest req) as [token|] eqn:Hx; simpl; [|done].
    destruct (String.eqb_spec token ""); simpl; [done|].
    unfold blacklistToken. destruct (String.eqb_spec token ""); [done|].
    destruct useRedis; [done|]. unfold revokedUntil. simpl.
    rewrite lookup_insert_ne; [done|]. naive_solver.
Qed.

Lemma logout_other_tokens_untouched_witness :
  revokedUntil "xyz"
    (logout false 5 {| authorization := "Bearer abc"; accessTokenCookie := None |}
       (blacklistToken false 0 "xyz" 60 emptyBlacklist))
  = revokedUntil "xyz" (blacklistToken false 0 "xyz" 60 emptyBlacklist).
Proof.
  destruct (logout_other_tokens_untouched false 5
              {| authorization := "Bearer abc"; accessTokenCookie := None |}
              (blacklistToken false 0 "xyz" 60 emptyBlacklist)) as (_ & Hother).
  apply (Hother "xyz"). discriminate.
Defined.

End SessionTheory.

(** ** Reading the token: header, cookie and handshake *)

Module TokenTheory.
Import Auth Session.

Lemma substring_all s : String.substring 0 (String.length s) s = s.
Proof. induction s as [|c s IH]; [done|]. simpl. by rewrite IH. Qed.

Lemma chars_app a b :
  String.list_ascii_of_string (a +:+ b)
  = String.list_ascii_of_string a ++ String.list_ascii_of_string b.
Proof. induction a as [|c a IH]; [done|]. simpl. by rewrite IH. Qed.

Lemma chars_length s : length (String.list_ascii_of_string s) = String.length s.
Proof. induction s as [|c s IH]; [done|]. simpl. by rewrite IH. Qed.

Lemma trimStartL_white ws l :
  forallb Js.isWhiteSpace ws = true → Js.trimStartL (ws ++ l) = Js.trimStartL l.
Proof.
  induction ws as [|c ws IH]; [done|]. simpl.
  intros [Hc Hws]%andb_true_iff. rewrite Hc. by apply IH.
Qed.

Lemma trimStartL_fixed l :
  (∀ c, head l = Some c → Js.isWhiteSpace c = false) → Js.trimStartL l = l.
Proof.
  destruct l as [|c l]; [done|]. intros H. simpl. by rewrite (H c).
Qed.

Lemma extract_bearer (t : string) (cookie : option string) :
  t ≠ "" →
  extractTokenFromRequest
    {| authorization := "Bearer " +:+ t; accessTokenCookie := cookie |} = Some t.
Proof.
  intros Hne. unfold extractTokenFromRequest, Js.bearerSlice. simpl.
  change ("" +:+ t) with t.
  assert (Hp : String.prefix "" t = true) by by destruct t.
  rewrite Hp. replace (String.length t - 0)%nat with (String.length t) by lia.
  rewrite substring_all. simpl. by destruct (String.eqb_spec t "").
Qed.

Lemma handshake_bearer (word ws t : string) (hdr : option string) :
  (∀ c, head (String.list_ascii_of_string t) = Some c → Js.isWhiteSpace c = false) →
  map Js.toLower (String.list_ascii_of_string word)
    = String.list_ascii_of_string "bearer" →
  ws ≠ "" →
  forallb Js.isWhiteSpace (String.list_ascii_of_string ws) = true →
  handshakeToken {| authToken := Some (word +:+ ws +:+ t); headerAuthorization := hdr |}
  = t.
Proof.
  intros Ht Hword Hne Hws.
  assert (Hlen : length (String.list_ascii_of_string word) = 6%nat).
  { apply (f_equal length) in Hword. by rewrite length_map in Hword. }
  unfold handshakeToken. simpl.
  assert (Hraw : String.eqb (word +:+ ws +:+ t) "" = false).
  { destruct word; [done|]. done. }
  rewrite Hraw. simpl. unfold Js.stripBearer.
  rewrite !chars_app. rewrite take_app_length' by done.
  rewrite drop_app_length' by done. rewrite Hword.
  destruct (String.list_ascii_of_string ws) as [|c wl] eqn:Ews.
  { destruct ws; [done|discriminate]. }
  simpl in Hws. apply andb_true_iff in Hws as [Hc Hwl].
  assert (Hall : forallb Js.isWhiteSpace (c :: wl) = true)
    by (simpl; by rewrite Hc, Hwl).
  rewrite (trimStartL_white (c :: wl)) by done.
  rewrite trimStartL_fixed by done.
  rewrite <- app_comm_cons, bool_decide_eq_true_2 by done. rewrite Hc.
  apply String.string_of_list_ascii_of_string.
Qed.

(** A header ["Bearer " + t] with a non-empty [t] yields [t], whatever the
    cookie holds; a header that does not start with ["Bearer "] (the test
    is case-sensitive), or that is ["Bearer "] alone, yields the cookie's
    token. *)
Theorem extractToken_header_first (t header : string) (cookie : option string) :
  (t ≠ "" →
     extractTokenFromRequest
       {| authorization := "Bearer " +:+ t; accessTokenCookie := cookie |} = Some t) ∧
  (String.prefix "Bearer " header = false ∨ header = "Bearer " →
     extractTokenFromRequest
       {| authorization := header; accessTokenCookie := cookie |} = cookie).
Proof.
  split.
  - apply extract_bearer.
  - intros [Hp| ->]; unfold extractTokenFromRequest, Js.bearerSlice; simpl;
      [by rewrite Hp|done].
Qed.

Lemma extractToken_header_first_witness :
  extractTokenFromRequest
    {| authorization := "Bearer " +:+ "abc"; accessTokenCookie := Some "zzz" |}
  = Some "abc".
Proof.
  destruct (extractToken_header_first "abc" "" (Some "zzz")) as (Hhdr & _).
  apply Hhdr. discriminate.
Defined.

(** The handshake accepts the word "bearer" in any letter case followed by
    any non-empty run of white space and hands on what comes after it: for
    a token [t] that does not start with white space, the prefixed form
    yields [t]; so does [t] alone when it does not itself start with the
    word "bearer". *)
Theorem handshakeToken_strips_bearer (word ws t : string) (hdr : option string) :
  (∀ c, head (String.list_ascii_of_string t) = Some c → Js.isWhiteSpace c = false) →
  (map Js.toLower (String.list_ascii_of_string word)
     = String.list_ascii_of_string "bearer" →
   ws ≠ "" →
   forallb Js.isWhiteSpace (String.list_ascii_of_string ws) = true →
   handshakeToken {| authToken := Some (word +:+ ws +:+ t); headerAuthorization := hdr |}
   = t) ∧
  (t ≠ "" →
   map Js.toLower (take 6 (String.list_ascii_of_string t))
     ≠ String.list_ascii_of_string "bearer" →
   handshakeToken {| authToken := Some t; headerAuthorization := hdr |} = t).
Proof.
  intros Ht. split.
  - by apply handshake_bearer.
  - intros Hne Hw. unfold handshakeToken. simpl.
    destruct (String.eqb_spec t ""); [done|]. simpl. unfold Js.stripBearer.
    destruct (drop 6 (String.list_ascii_of_string t)); [done|].
    by rewrite bool_decide_eq_false_2.
Qed.

Lemma handshakeToken_strips_bearer_witness :
  handshakeToken {| authToken := Some ("BEARER" +:+ "  " +:+ "abc");
                    headerAuthorization := None |} = "abc".
Proof.
  destruct (handshakeToken_strips_bearer "BEARER" "  " "abc" None) as (Hstrip & _).
  - intros c [= <-]. reflexivity.
  - apply Hstrip; [reflexivity|discriminate|reflexivity].
Defined.



Lemma includes_prefix needle hay : String.prefix needle hay = true → includes needle hay = true.
Proof. intros H. destruct hay; cbn [includes]; by rewrite H. Qed.

Lemma includes_app needle a b :
  includes needle b = true → includes needle (a +:+ b) = true.
Proof.
  induction a as [|c a IH]; [done|]. intros Hb.
  change (String c a +:+ b) with (String c (a +:+ b)). cbn [includes].
  rewrite (IH Hb). apply orb_true_r.
Qed.

(** [GET /uploads/:filename] sends a file only when the name is not empty,
    holds no "..", no slash and no backslash, and the file exists; with
    public uploads off it sends it exactly when the REST middleware would
    let the same request through. *)
Theorem serveUpload_gate (allowPublic : bool) (fileExists : string → bool)
    (e : env) (bl : Revocation.blacklist) (filename : string) (req : request) :
  (∀ served, serveUpload allowPublic fileExists e bl filename req = SendFile served →
     served = filename ∧ filename ≠ "" ∧ fileExists filename = true ∧
     ∀ dir rest sep, sep ∈ [".."; "/"; "\"] → filename ≠ dir +:+ sep +:+ rest) ∧
  (filename ≠ "" →
   includes ".." filename || includes "/" filename || includes "\" filename = false →
   fileExists filename = true →
   (serveUpload false fileExists e bl filename req = SendFile filename ↔
    ∃ p, auth e bl req = Next p) ∧
   serveUpload true fileExists e bl filename req = SendFile filename).
Proof.
  split.
  - intros served. unfold serveUpload.
    destruct (String.eqb_spec filename ""); [done|].
    destruct (includes ".." filename || includes "/" filename
              || includes "\" filename) eqn:Hinc; [done|].
    destruct (fileExists filename) eqn:Hex; simpl; [|done].
    intros Hsend.
    assert (served = filename).
    { destruct allowPublic; [by injection Hsend|].
      destruct (negb _); [done|]. destruct (blacklisted _ _ _) as [[]|]; try done.
      destruct (jwtVerify _ _); [by injection Hsend|done]. }
    split; [done|]. split; [done|]. split; [done|].
    intros dir rest sep Hsep ->.
    apply orb_false_iff in Hinc as [Hinc Hbs].
    apply orb_false_iff in Hinc as [Hdots Hslash].
    assert (Hin : ∀ s, String.prefix s (s +:+ rest) = true →
              includes s (dir +:+ s +:+ rest) = true)
      by (intros s Hs; by apply includes_app, includes_prefix).
    repeat (apply elem_of_cons in Hsep as [->|Hsep];
            [rewrite Hin in * by (by destruct rest); congruence|]).
    by apply elem_of_nil in Hsep.
  - intros Hne Hinc Hex. unfold serveUpload, auth.
    destruct (String.eqb_spec filename ""); [done|]. rewrite Hinc, Hex. simpl.
    split; [|done].
    destruct (negb (Js.truthy (extractTokenFromRequest req)));
      [split; [done|by intros [? ?]]|].
    destruct (blacklisted _ _ _) as [[]|]; try (split; [done|by intros [? ?]]).
    destruct (jwtVerify _ _); [split; [by eauto|done]|split; [done|by intros [? ?]]].
Qed.

Lemma serveUpload_gate_witness :
  serveUpload true (λ _, true) envNothingVerifies Revocation.emptyBlacklist "a.png"
    {| authorization := ""; accessTokenCookie := None |}
  = SendFile "a.png".
Proof.
  assert (Hne : "a.png" ≠ "") by discriminate.
  destruct (serveUpload_gate true (λ _, true) envNothingVerifies
              Revocation.emptyBlacklist "a.png"
              {| authorization := ""; accessTokenCookie := None |}) as (_ & Hok).
  destruct (Hok Hne eq_refl eq_refl) as (_ & Hpublic).
  exact Hpublic.
Defined.

End TokenTheory.

(** ** Presence: sockets that are not registered, and the order of events *)

Module PresenceMore.
Import Presence PresenceTheory.

(** Two presence maps without empty sets that give every user the same
    sessions are the same map. *)
Lemma presence_ext m1 m2 :
  no_empty_set m1 → no_empty_set m2 →
  (∀ u, sessions m1 u = sessions m2 u) → m1 = m2.
Proof.
  intros H1 H2 Hs. apply map_eq. intros u. specialize (Hs u).
  unfold sessions in Hs.
  destruct (m1 !! u) as [S1|] eqn:E1, (m2 !! u) as [S2|] eqn:E2; simpl in Hs.
  - by rewrite Hs.
  - exfalso. by eapply H1.
  - exfalso. by eapply H2.
  - done.
Qed.

Lemma step_no_empty_set m e : no_empty_set m → no_empty_set (step m e).
Proof.
  destruct e; [apply add_no_empty_set|apply remove_no_empty_set].
Qed.

(** In every reachable presence map, the disconnect of a socket that is not
    registered for the user changes nothing, and a connect followed by the
    disconnect of the same fresh socket gives back the map as it was. *)
Theorem disconnect_of_unregistered_socket (evs : list event) (u s : string) :
  let m := run evs emptyOnline in
  s ∉ sessions m u →
  removePresence u s m = m ∧
  removePresence u s (addPresence u s m) = m.
Proof.
  intros m Hs.
  assert (Hm : no_empty_set m) by apply run_no_empty_set, empty_no_empty_set.
  split.
  - apply presence_ext; [by apply remove_no_empty_set|done|].
    intros v. apply set_eq. intros x. rewrite sessions_remove. naive_solver.
  - apply presence_ext; [by apply remove_no_empty_set, add_no_empty_set|done|].
    intros v. apply set_eq. intros x. rewrite sessions_remove, sessions_add.
    naive_solver.
Qed.

Lemma disconnect_of_unregistered_socket_witness :
  removePresence "u1" "s2" (run [Connect "u1" "s1"] emptyOnline)
  = run [Connect "u1" "s1"] emptyOnline.
Proof.
  destruct (disconnect_of_unregistered_socket [Connect "u1" "s1"] "u1" "s2")
    as (Hnoop & _).
  - vm_compute. set_solver.
  - exact Hnoop.
Defined.

Lemma sessions_step m e u s :
  s ∈ sessions (step m e) u ↔
  match e with
  | Connect u' s' => (u' = u ∧ s' = s) ∨ s ∈ sessions m u
  | Disconnect u' s' => ¬ (u' = u ∧ s' = s) ∧ s ∈ sessions m u
  end.
Proof. destruct e; [apply sessions_add|apply sessions_remove]. Qed.

(** Two consecutive events about different (user, socket) pairs can be
    swapped: the presence map after them, and after anything that
    follows, is the same. *)
Theorem events_of_different_sockets_commute (before after : list event)
    (u1 s1 u2 s2 : string) (c1 c2 : bool) :
  (u1, s1) ≠ (u2, s2) →
  let e1 := if c1 then Connect u1 s1 else Disconnect u1 s1 in
  let e2 := if c2 then Connect u2 s2 else Disconnect u2 s2 in
  run (before ++ e1 :: e2 :: after) emptyOnline
  = run (before ++ e2 :: e1 :: after) emptyOnline.
Proof.
  intros Hne e1 e2. unfold run. rewrite !foldl_app. simpl. f_equal.
  set (m := foldl step emptyOnline before).
  assert (Hm : no_empty_set m) by apply run_no_empty_set, empty_no_empty_set.
  apply presence_ext; [by do 2 apply step_no_empty_set..|].
  intros v. apply set_eq. intros x. rewrite !sessions_step.
  subst e1 e2. destruct c1, c2; rewrite !sessions_step; naive_solver.
Qed.

Lemma events_of_different_sockets_commute_witness :
  run ([] ++ Connect "u1" "s1" :: Disconnect "u1" "s2" :: []) emptyOnline
  = run ([] ++ Disconnect "u1" "s2" :: Connect "u1" "s1" :: []) emptyOnline.
Proof.
  assert (Hne : ("u1", "s1") ≠ ("u1", "s2")) by discriminate.
  exact (events_of_different_sockets_commute [] [] "u1" "s1" "u1" "s2" true false Hne).
Defined.

End PresenceMore.

(** ** Inbox: chat list, unread counts, online partners *)

Module InboxTheory.
Import Messaging Inbox.

Lemma insertChatDesc_perm x l : insertChatDesc x l ≡ₚ x :: l.
Proof.
  induction l as [|y l IH]; simpl; [done|].
  destruct (updatedAt y <=? updatedAt x)%Z; [done|].
  rewrite IH. apply Permutation_swap.
Qed.

Lemma sortChatsDesc_perm l : sortChatsDesc l ≡ₚ l.
Proof.
  induction l as [|x l IH]; simpl; [done|]. by rewrite insertChatDesc_perm, IH.
Qed.

Lemma insertChatDesc_sorted x l :
  StronglySorted chat_newer_eq l → StronglySorted chat_newer_eq (insertChatDesc x l).
Proof.
  induction l as [|y l IH]; simpl; intros Hs.
  - repeat constructor.
  - apply StronglySorted_cons in Hs as [Hy Hs].
    destruct (Z.leb_spec (updatedAt y) (updatedAt x)) as [Hle|Hlt].
    + apply StronglySorted_cons. split; [|by apply StronglySorted_cons].
      constructor; [done|]. eapply Forall_impl; [exact Hy|].
      unfold chat_newer_eq. intros z Hz. simpl in Hz. lia.
    + apply StronglySorted_cons. split; [|by apply IH].
      rewrite insertChatDesc_perm. constructor; [unfold chat_newer_eq; lia|done].
Qed.

Lemma sortChatsDesc_sorted l : StronglySorted chat_newer_eq (sortChatsDesc l).
Proof.
  induction l as [|x l IH]; simpl; [constructor|]. by apply insertChatDesc_sorted.
Qed.

Lemma elem_of_chatsOf me cs c : c ∈ chatsOf me cs ↔ c ∈ cs ∧ me ∈ participants c.
Proof.
  unfold chatsOf. rewrite !list_elem_of_In, filter_In, bool_decide_eq_true.
  by rewrite <- !list_elem_of_In.
Qed.

Lemma getChats_success_chats me findOk lastOk countOk d st l :
  getChats me findOk lastOk countOk d = Success st l →
  st = 200%nat ∧ map s_chat l = sortChatsDesc (chatsOf me (chats d)) ∧
  l = map (summarize me countOk d) (sortChatsDesc (chatsOf me (chats d))).
Proof.
  unfold getChats. destruct findOk; simpl; [|done].
  destruct (forallb _ _); [|done]. intros [= <- <-].
  split; [done|]. split; [|done]. rewrite map_map. simpl. apply map_id.
Qed.

Lemma getChats_mem me findOk lastOk countOk d st l c :
  getChats me findOk lastOk countOk d = Success st l →
  c ∈ map s_chat l ↔ c ∈ chats d ∧ me ∈ participants c.
Proof.
  intros (_ & -> & _)%getChats_success_chats.
  rewrite sortChatsDesc_perm. apply elem_of_chatsOf.
Qed.

(** A successful [GET /chats] lists exactly the chats that have the caller
    among their participants, each once per stored document, newest
    [updatedAt] first, each overlaid with its summary; it fails only when
    the chat query or a last-message query fails, not when a count does. *)
Theorem getChats_lists_my_chats (me : string) (findOk : bool)
    (lastOk countOk : string → bool) (d : db) :
  (∀ st l, getChats me findOk lastOk countOk d = Success st l →
     st = 200%nat ∧
     map s_chat l ≡ₚ chatsOf me (chats d) ∧
     StronglySorted chat_newer_eq (map s_chat l) ∧
     (∀ c, c ∈ map s_chat l ↔ c ∈ chats d ∧ me ∈ participants c) ∧
     (∀ s, s ∈ l → s = summarize me countOk d (s_chat s))) ∧
  (findOk = true → (∀ c, c ∈ chats d → lastOk (cid c) = true) →
     ∃ l, getChats me findOk lastOk countOk d = Success 200 l).
Proof.
  split.
  - intros st l Hl.
    destruct (getChats_success_chats _ _ _ _ _ _ _ Hl) as (-> & Hmap & Hsum).
    rewrite Hmap. split; [done|]. split; [apply sortChatsDesc_perm|].
    split; [apply sortChatsDesc_sorted|]. split.
    + intros c. rewrite sortChatsDesc_perm. apply elem_of_chatsOf.
    + intros s Hs. rewrite Hsum in Hs.
      apply list_elem_of_fmap in Hs as [c [-> _]]. done.
  - unfold getChats. intros -> Hlast. simpl.
    rewrite (proj2 (forallb_forall _ _)); [by eexists|].
    intros c Hc. apply Hlast.
    rewrite <- list_elem_of_In, sortChatsDesc_perm, elem_of_chatsOf in Hc. by destruct Hc.
Qed.

Lemma getChats_lists_my_chats_witness :
  ∃ l, getChats "64b7f0c2a1d3e4f5a6b7c8d3" true (λ _, true) (λ _, false) tieDb
       = Success 200 l.
Proof.
  destruct (getChats_lists_my_chats "64b7f0c2a1d3e4f5a6b7c8d3" true (λ _, true)
              (λ _, false) tieDb) as (_ & Hok).
  exact (Hok eq_refl (λ c _, eq_refl)).
Defined.

Lemma unseenFor_setSeen_other chat me chat' user m :
  (chat', user) ≠ (chat, me) →
  unseenFor chat' user (setSeen chat me m) = unseenFor chat' user m.
Proof.
  intros Hne. unfold setSeen. destruct (unseenFor chat me m) eqn:E; [|done].
  unfold unseenFor in *. simpl.
  apply andb_true_iff in E as [E _]. apply andb_true_iff in E as [Ec Er].
  apply String.eqb_eq in Ec, Er.
  destruct (String.eqb_spec (chatId m) chat');
    destruct (String.eqb_spec (receiver m) user); simpl; try done.
  congruence.
Qed.

Lemma insertDesc_map (f : Message → Message) x l :
  (∀ m, createdAt (f m) = createdAt m) →
  insertDesc (f x) (map f l) = map f (insertDesc x l).
Proof.
  intros Hf. induction l as [|y l IH]; simpl; [done|].
  rewrite !Hf. destruct (createdAt y <=? createdAt x)%Z; simpl; [done|].
  by rewrite IH.
Qed.

Lemma sortDesc_map (f : Message → Message) l :
  (∀ m, createdAt (f m) = createdAt m) →
  sortDesc (map f l) = map f (sortDesc l).
Proof.
  intros Hf. induction l as [|x l IH]; simpl; [done|].
  by rewrite IH, insertDesc_map.
Qed.

Lemma filter_map_chat (f : Message → Message) chat l :
  (∀ m, chatId (f m) = chatId m) →
  List.filter (λ m, String.eqb (chatId m) chat) (map f l)
  = map f (List.filter (λ m, String.eqb (chatId m) chat) l).
Proof.
  intros Hf. induction l as [|x l IH]; simpl; [done|].
  rewrite Hf. destruct (String.eqb (chatId x) chat); simpl; by rewrite IH.
Qed.

Lemma lastMessageOf_setSeen chat me c ms :
  lastMessageOf c (map (setSeen chat me) ms) = setSeen chat me <$> lastMessageOf c ms.
Proof.
  unfold lastMessageOf.
  rewrite filter_map_chat by (intros m; apply MessagingTheory.setSeen_spec).
  rewrite sortDesc_map by (intros m; apply MessagingTheory.setSeen_spec).
  by destruct (sortDesc _).
Qed.

(** The [unread] of a chat in [GET /chats] is the number the caller's
    mark-as-seen on that chat answers; after that call the chat's [unread]
    is 0, its [lastMessage] and [lastMessageAt] are as before, and the
    [unread] of every other chat, and of every other user, is as before. *)
Theorem unread_is_what_markSeen_updates (me : string) (countOk : string → bool)
    (w : world) (c : Chat) :
  countOk (cid c) = true →
  let d := store w in
  let d' := store (exec w (snd (putSeen me (cid c) true d))) in
  fst (putSeen me (cid c) true d) = Success 200 (s_unread (summarize me countOk d c)) ∧
  s_unread (summarize me countOk d' c) = 0%nat ∧
  s_lastMessage (summarize me countOk d' c) = s_lastMessage (summarize me countOk d c) ∧
  s_lastMessageAt (summarize me countOk d' c)
    = s_lastMessageAt (summarize me countOk d c) ∧
  (∀ user other, (cid other, user) ≠ (cid c, me) →
     s_unread (summarize user countOk d' other)
     = s_unread (summarize user countOk d other)).
Proof.
  intros Hok d d'. subst d d'. unfold putSeen, summarize, modifiedCount. simpl.
  rewrite Hok. split; [done|]. split; [|split; [|split]].
  - by rewrite MessagingTheory.filter_unseen_after.
  - rewrite lastMessageOf_setSeen.
    destruct (lastMessageOf (cid c) (messages (store w))) as [m|]; simpl; [|done].
    destruct (MessagingTheory.setSeen_spec (cid c) me m) as ((_&_&_&_&Ht&_)&_).
    by rewrite Ht.
  - rewrite lastMessageOf_setSeen.
    destruct (lastMessageOf (cid c) (messages (store w))) as [m|]; simpl; [|done].
    by destruct (MessagingTheory.setSeen_spec (cid c) me m) as ((_&_&_&_&_&Ht)&_).
  - intros user other Hne. destruct (countOk (cid other)); [|done].
    induction (messages (store w)) as [|m ms IH]; [done|].
    simpl. rewrite unseenFor_setSeen_other by done.
    destruct (unseenFor (cid other) user m); simpl; by rewrite IH.
Qed.

Lemma unread_is_what_markSeen_updates_witness :
  s_unread (summarize "64b7f0c2a1d3e4f5a6b7c8d2" (λ _, true)
              (store (exec {| store := tieDb; emitted := [] |}
                 (snd (putSeen "64b7f0c2a1d3e4f5a6b7c8d2" (cid oneChat) true
                         (store {| store := tieDb; emitted := [] |})))))
              oneChat) = 0%nat.
Proof.
  destruct (unread_is_what_markSeen_updates "64b7f0c2a1d3e4f5a6b7c8d2" (λ _, true)
              {| store := tieDb; emitted := [] |} oneChat eq_refl) as (_ & Hzero & _).
  exact Hzero.
Defined.

(** A successful [POST /messages] raises by one the number of unseen
    messages of that chat addressed to the receiver, which is the
    receiver's [unread] in [GET /chats] and the count a mark-as-seen would
    answer, and leaves that number as it was for every other chat and
    every other user, the sender included. *)
Theorem send_adds_one_unread (me : string) (body : send_body) (newId : string)
    (now now' : Z) (w : world) (st : nat) (msg : Message) :
  fst (postMessages me body newId now now' true true) = Success st msg →
  let d' := store (exec w (snd (postMessages me body newId now now' true true))) in
  modifiedCount (chatId msg) (receiver msg) d'
    = S (modifiedCount (chatId msg) (receiver msg) (store w)) ∧
  (∀ chat user, (chat, user) ≠ (chatId msg, receiver msg) →
     modifiedCount chat user d' = modifiedCount chat user (store w)).
Proof.
  intros Hr d'. subst d'.
  apply MessagingTheory.postMessages_success in Hr
    as (chat & to & raw & Hc & Hrcv & Hx & Hne & -> & -> & Heffs).
  rewrite Heffs. unfold modifiedCount. simpl.
  split.
  - rewrite List.filter_app, length_app. simpl. unfold unseenFor at 2. simpl.
    rewrite !String.eqb_refl. simpl. lia.
  - intros chat' user Hneq. rewrite List.filter_app, length_app. simpl.
    unfold unseenFor at 2. simpl.
    destruct (String.eqb_spec chat chat'); destruct (String.eqb_spec to user);
      simpl; try lia. congruence.
Qed.

Lemma send_adds_one_unread_witness :
  modifiedCount (chatId helloMessage) (receiver helloMessage)
    (store (exec emptyWorld
       (snd (postMessages "64b7f0c2a1d3e4f5a6b7c8d3" helloBody
               "64b7f0c2a1d3e4f5a6b7c8d4" 1000 1001 true true))))
  = S (modifiedCount (chatId helloMessage) (receiver helloMessage) (store emptyWorld)).
Proof.
  destruct (send_adds_one_unread "64b7f0c2a1d3e4f5a6b7c8d3" helloBody
              "64b7f0c2a1d3e4f5a6b7c8d4" 1000 1001 emptyWorld 201%nat helloMessage
              eq_refl) as (Hone & _).
  exact Hone.
Defined.

End InboxTheory.

(** ** History readers and what a sent message changes *)

Module HistoryMore.
Import Messaging Inbox.




Lemma insertAsc_perm x l : insertAsc x l ≡ₚ x :: l.
Proof.
  induction l as [|y l IH]; simpl; [done|].
  destruct (createdAt x <=? createdAt y)%Z; [done|].
  rewrite IH. apply Permutation_swap.
Qed.

Lemma sortAsc_perm l : sortAsc l ≡ₚ l.
Proof.
  induction l as [|x l IH]; simpl; [done|]. by rewrite insertAsc_perm, IH.
Qed.

Lemma insertAsc_sorted x l :
  StronglySorted older_eq l → StronglySorted older_eq (insertAsc x l).
Proof.
  induction l as [|y l IH]; simpl; intros Hs.
  - repeat constructor.
  - apply StronglySorted_cons in Hs as [Hy Hs].
    destruct (Z.leb_spec (createdAt x) (createdAt y)) as [Hle|Hlt].
    + apply StronglySorted_cons. split; [|by apply StronglySorted_cons].
      constructor; [done|]. eapply Forall_impl; [exact Hy|].
      unfold older_eq. intros z Hz. simpl in Hz. lia.
    + apply StronglySorted_cons. split; [|by apply IH].
      rewrite insertAsc_perm. constructor; [unfold older_eq; lia|done].
Qed.

Lemma sortAsc_sorted l : StronglySorted older_eq (sortAsc l).
Proof.
  induction l as [|x l IH]; simpl; [constructor|]. by apply insertAsc_sorted.
Qed.


Lemma elem_of_filter_chat chat l m :
  m ∈ List.filter (λ m, String.eqb (chatId m) chat) l ↔ m ∈ l ∧ chatId m = chat.
Proof. by rewrite !list_elem_of_In, filter_In, String.eqb_eq. Qed.

(** The controller's and the router's history readers answer 400 to an
    invalid chat id; otherwise both return every message of the chat, each
    as often as it is stored, sorted by [createdAt] ascending. *)
Theorem full_history_sorted (isValid : string → bool) (chat : string) (d : db) :
  (isValid chat = false →
     controllerGetMessages isValid chat true d = Failure 400 "Invalid chatId" ∧
     routerGetMessages isValid chat true d = Failure 400 "Invalid chat ID.") ∧
  (isValid chat = true →
     ∃ l, controllerGetMessages isValid chat true d = Success 200 l ∧
          routerGetMessages isValid chat true d = Success 200 l ∧
          StronglySorted older_eq l ∧
          l ≡ₚ List.filter (λ m, String.eqb (chatId m) chat) (messages d) ∧
          ∀ m, m ∈ l ↔ m ∈ messages d ∧ chatId m = chat).
Proof.
  unfold controllerGetMessages, routerGetMessages. split; intros ->; simpl; [done|].
  eexists. split; [done|]. split; [done|]. split; [apply sortAsc_sorted|].
  split; [apply sortAsc_perm|].
  intros m. rewrite sortAsc_perm. apply elem_of_filter_chat.
Qed.

Lemma full_history_sorted_witness :
  ∃ l, controllerGetMessages (λ _, true) "64b7f0c2a1d3e4f5a6b7c8d1" true historyDb
       = Success 200 l ∧
       routerGetMessages (λ _, true) "64b7f0c2a1d3e4f5a6b7c8d1" true historyDb
       = Success 200 l ∧
       StronglySorted older_eq l ∧
       l ≡ₚ List.filter (λ m, String.eqb (chatId m) "64b7f0c2a1d3e4f5a6b7c8d1")
              (messages historyDb) ∧
       ∀ m, m ∈ l ↔ m ∈ messages historyDb ∧ chatId m = "64b7f0c2a1d3e4f5a6b7c8d1".
Proof.
  destruct (full_history_sorted (λ _, true) "64b7f0c2a1d3e4f5a6b7c8d1" historyDb)
    as (_ & Hok).
  exact (Hok eq_refl).
Defined.





(** The router of [messageRoutes.js] persists only texts that are not
    blank, exactly as submitted (white space at the ends included), for
    valid chat and sender ids only, and never emits an event. *)
Theorem router_persists_submitted_text (isValid : string → bool)
    (chat senderId receiverId : string) (txt : option string) (newId : string)
    (now now' : Z) (saveOk updateOk : bool) :
  let effs := snd (routerPostMessage isValid chat senderId receiverId txt newId
                     now now' saveOk updateOk) in
  (∀ m, MessageCreate m ∈ effs →
     txt = Some (text m) ∧ Js.trim (text m) ≠ "" ∧
     isValid chat = true ∧ isValid senderId = true ∧
     chatId m = chat ∧ sender m = senderId ∧ receiver m = receiverId ∧ seen m = false) ∧
  (∀ room ev p, IoEmit room ev p ∉ effs).
Proof.
  intros effs. subst effs. unfold routerPostMessage.
  destruct (isValid chat), (isValid senderId); simpl;
    try (split; [by intros m ?%elem_of_nil|by intros ??? ?%elem_of_nil]).
  destruct txt as [raw|]; simpl;
    [|split; [by intros m ?%elem_of_nil|by intros ??? ?%elem_of_nil]].
  destruct (String.eqb_spec raw ""); simpl;
    [split; [by intros m ?%elem_of_nil|by intros ??? ?%elem_of_nil]|].
  destruct (String.eqb_spec (Js.trim raw) ""); simpl;
    [split; [by intros m ?%elem_of_nil|by intros ??? ?%elem_of_nil]|].
  destruct saveOk; simpl;
    [|split; [by intros m ?%elem_of_nil|by intros ??? ?%elem_of_nil]].
  destruct updateOk; simpl; split.
  - intros m Hin.
    apply elem_of_cons in Hin as [[= ->]|Hin]; [done|].
    apply elem_of_cons in Hin as [?|Hin]; [done|]. by apply elem_of_nil in Hin.
  - intros room ev p Hin.
    repeat (apply elem_of_cons in Hin as [?|Hin]; [done|]). by apply elem_of_nil in Hin.
  - intros m Hin.
    apply elem_of_cons in Hin as [[= ->]|Hin]; [done|]. by apply elem_of_nil in Hin.
  - intros room ev p Hin.
    repeat (apply elem_of_cons in Hin as [?|Hin]; [done|]). by apply elem_of_nil in Hin.
Qed.

Lemma router_persists_submitted_text_witness :
  Some "  hi " = Some (text {| mid := "64b7f0c2a1d3e4f5a6b7c8e1";
                               chatId := "64b7f0c2a1d3e4f5a6b7c8d1";
                               sender := "64b7f0c2a1d3e4f5a6b7c8d3";
                               receiver := "64b7f0c2a1d3e4f5a6b7c8d2";
                               text := "  hi "; createdAt := 1000; seen := false |}).
Proof.
  destruct (router_persists_submitted_text (λ _, true) "64b7f0c2a1d3e4f5a6b7c8d1"
              "64b7f0c2a1d3e4f5a6b7c8d3" "64b7f0c2a1d3e4f5a6b7c8d2" (Some "  hi ")
              "64b7f0c2a1d3e4f5a6b7c8e1" 1000 1001 true true) as (Hcreate & _).
  destruct (Hcreate {| mid := "64b7f0c2a1d3e4f5a6b7c8e1";
                       chatId := "64b7f0c2a1d3e4f5a6b7c8d1";
                       sender := "64b7f0c2a1d3e4f5a6b7c8d3";
                       receiver := "64b7f0c2a1d3e4f5a6b7c8d2";
                       text := "  hi "; createdAt := 1000; seen := false |})
    as (Htxt & _).
  - apply elem_of_cons. by left.
  - exact Htxt.
Defined.

(** [GET /chats/online] reports a user id exactly when that user has an
    open socket, is not the caller, and takes part in a chat the caller
    takes part in. *)
Theorem onlineIds_are_online_partners (me : string)
    (onlineUsers : gmap string (gset string)) (d : db) (id : string) :
  id ∈ onlineIds me onlineUsers d ↔
  Presence.isOnline onlineUsers id = true ∧ id ≠ me ∧
  ∃ c, c ∈ chats d ∧ me ∈ participants c ∧ id ∈ participants c.
Proof.
  unfold onlineIds, partnerIds, Presence.isOnline.
  rewrite elem_of_filter, elem_of_dom, bool_decide_eq_true, elem_of_list_to_set.
  rewrite list_elem_of_In, filter_In, in_concat, negb_true_iff.
  split.
  - intros [[[ps [Hps Hid]] Hne] Hon]. split; [done|].
    split; [by apply String.eqb_neq|].
    apply in_map_iff in Hps as [c [<- Hc]].
    apply list_elem_of_In, InboxTheory.elem_of_chatsOf in Hc as [Hc Hme].
    apply list_elem_of_In in Hid. by exists c.
  - intros [Hon [Hne [c [Hc [Hme Hid]]]]]. split; [|done].
    split; [|by apply String.eqb_neq].
    exists (participants c). split; [|by apply list_elem_of_In].
    apply in_map_iff. exists c. split; [done|].
    by apply list_elem_of_In, InboxTheory.elem_of_chatsOf.
Qed.

End HistoryMore.

(** ** Files: what [validateImageMagic] accepts *)

Module FilesTheory.
Import Files.

Lemma startsWith_padded sig : ∀ n file,
  (length sig ≤ n)%nat → Forall (λ b, b ≠ Byte.x00) sig →
  startsWith sig (take n file ++ replicate (n - Nat.min n (length file)) Byte.x00)
  = startsWith sig file.
Proof.
  induction sig as [|s sig IH]; intros n file Hlen Hnz; [done|].
  apply Forall_cons in Hnz as [Hs Hnz]. simpl in Hlen.
  destruct n as [|n]; [lia|]. destruct file as [|b file]; simpl.
  - destruct (Byte.eqb s Byte.x00) eqn:E; [|done].
    by apply Byte.byte_dec_bl in E.
  - rewrite IH by (done || lia). done.
Qed.

Lemma drop_padded a : ∀ b file,
  drop a (take (a + b) file
          ++ replicate (a + b - Nat.min (a + b) (length file)) Byte.x00)
  = take b (drop a file)
    ++ replicate (b - Nat.min b (length (drop a file))) Byte.x00.
Proof.
  induction a as [|a IH]; intros b file; [done|].
  destruct file as [|x file]; simpl.
  - rewrite drop_replicate, take_nil. simpl. f_equal. lia.
  - apply IH.
Qed.

Lemma startsWith_app sig file more :
  startsWith sig file = true → startsWith sig (file ++ more) = true.
Proof.
  revert file. induction sig as [|s sig IH]; intros file; [done|].
  destruct file as [|b file]; simpl; [done|].
  intros [Hb Hrest]%andb_true_iff. rewrite Hb. by apply IH.
Qed.

Lemma startsWith_take sig n file :
  (length sig ≤ n)%nat → startsWith sig (take n file) = startsWith sig file.
Proof.
  revert n file. induction sig as [|s sig IH]; intros n file Hlen; [done|].
  simpl in Hlen. destruct n as [|n]; [lia|]. destruct file as [|b file]; simpl; [done|].
  rewrite IH by lia. done.
Qed.

Lemma startsWith_length sig file :
  startsWith sig file = true → (length sig ≤ length file)%nat.
Proof.
  revert file. induction sig as [|s sig IH]; intros file; simpl; [lia|].
  destruct file as [|b file]; [done|]. intros [_ H]%andb_true_iff.
  apply IH in H. simpl. lia.
Qed.

(** The zero padding of the buffer never completes a signature: the
    verdict is whether the file itself starts with one. *)
Lemma validateImageMagic_file file :
  validateImageMagic file
  = startsWith jpegMagic file || startsWith pngMagic file || startsWith gifMagic file
    || (startsWith riffMagic file && startsWith webpMagic (drop 8 file)).
Proof.
  unfold validateImageMagic.
  assert (Hnz : ∀ sig, sig ∈ [jpegMagic; pngMagic; gifMagic; riffMagic; webpMagic] →
            Forall (λ b, b ≠ Byte.x00) sig).
  { intros sig Hsig.
    repeat (apply elem_of_cons in Hsig as [->|Hsig];
            [repeat constructor; discriminate|]).
    by apply elem_of_nil in Hsig. }
  rewrite !(startsWith_padded _ 12) by (simpl; lia || apply Hnz; set_solver).
  pose proof (drop_padded 8 4 file) as Hdrop.
  change (8 + 4)%nat with 12%nat in Hdrop. rewrite Hdrop. clear Hdrop.
  rewrite (startsWith_padded _ 4) by (simpl; lia || apply Hnz; set_solver).
  destruct file as [|b file]; [done|]. simpl Nat.min. cbn [Nat.eqb].
  destruct (startsWith jpegMagic (b :: file)); [done|].
  destruct (startsWith pngMagic (b :: file)); [done|].
  destruct (startsWith gifMagic (b :: file)); [done|].
  by destruct (startsWith riffMagic (b :: file) && startsWith webpMagic (drop 8 (b :: file))).
Qed.

(** [validateImageMagic] accepts exactly the files that begin with the
    JPEG bytes [ff d8 ff], the PNG bytes [89 50 4e 47], the bytes ["GIF8"],
    or ["RIFF"], four more bytes and ["WEBP"].  So it rejects every file
    shorter than 3 bytes, looks at the first 12 bytes only, and keeps
    accepting an accepted file however it continues. *)
Theorem validateImageMagic_signatures (file more : list Byte.byte) :
  (validateImageMagic file = true ↔
     (∃ rest, file = jpegMagic ++ rest) ∨ (∃ rest, file = pngMagic ++ rest) ∨
     (∃ rest, file = gifMagic ++ rest) ∨
     (∃ size rest, length size = 4%nat ∧ file = riffMagic ++ size ++ webpMagic ++ rest)) ∧
  ((length file < 3)%nat → validateImageMagic file = false) ∧
  validateImageMagic (take 12 file) = validateImageMagic file ∧
  (validateImageMagic file = true → validateImageMagic (file ++ more) = true).
Proof.
  assert (Hsw : ∀ sig f, startsWith sig f = true ↔ ∃ rest, f = sig ++ rest).
  { induction sig as [|s sig IH]; intros f; simpl.
    - split; [by exists f|done].
    - destruct f as [|b f]; [split; [done|by intros [? ?]]|].
      rewrite andb_true_iff, IH. split.
      + intros [->%Byte.byte_dec_bl [rest ->]]. by exists rest.
      + intros [rest [= -> ->]]. split; [by apply Byte.byte_dec_lb|by exists rest]. }
  split; [|split; [|split]].
  - rewrite validateImageMagic_file, !orb_true_iff, andb_true_iff, !Hsw.
    split.
    + intros [[[H|H]|H]|[[r1 H1] [r2 H2]]]; [by left|by right; left|by right; right; left|].
      right; right; right. subst file. simpl in H2.
      destruct r1 as [|a [|b [|c [|e r1]]]]; simpl in H2; try discriminate H2.
      exists [a; b; c; e], r2. split; [done|].
      rewrite drop_0 in H2. simpl. by rewrite H2.
    + intros [H|[H|[H|(size & rest & Hlen & ->)]]];
        [by left; left; left|by left; left; right|by left; right|].
      right. split; [by eexists|].
      destruct size as [|a [|b [|c [|e [|? ?]]]]]; try discriminate Hlen.
      simpl. by exists rest.
  - intros Hlen. rewrite validateImageMagic_file.
    destruct file as [|a [|b [|c ?]]]; simpl in Hlen; try lia; simpl;
      rewrite ?andb_false_r; done.
  - rewrite !validateImageMagic_file.
    rewrite !(startsWith_take _ 12) by (simpl; lia).
    f_equal. f_equal.
    destruct (decide (length file ≤ 8)%nat) as [Hle|Hgt].
    + rewrite !drop_ge by (rewrite ?length_take; lia). done.
    + replace (drop 8 (take 12 file)) with (take 4 (drop 8 file)).
      * apply startsWith_take. simpl. lia.
      * exact (take_drop_commute file 4 8).
  - rewrite !validateImageMagic_file, !orb_true_iff, andb_true_iff.
    intros [[[H|H]|H]|[H1 H2]];
      [left; left; left|left; left; right|left; right|right];
      try (by apply startsWith_app).
    apply andb_true_iff. split; [by apply startsWith_app|].
    assert (length (drop 8 file) ≠ 0)%nat
      by (apply startsWith_length in H2; simpl in H2; lia).
    rewrite length_drop in *. rewrite drop_app_le by lia. by apply startsWith_app.
Qed.

Lemma validateImageMagic_signatures_witness :
  validateImageMagic ([Byte.xff; Byte.xd8; Byte.xff; Byte.xe0] ++ [Byte.x00; Byte.x10])
  = true.
Proof.
  destruct (validateImageMagic_signatures [Byte.xff; Byte.xd8; Byte.xff; Byte.xe0]
              [Byte.x00; Byte.x10]) as (_ & _ & _ & Hmore).
  apply Hmore. reflexivity.
Defined.

End FilesTheory.

(** ** Accounts: login, profile update, posts *)

Module AccountsTheory.
Import Accounts.

Lemma head_rev_last {A} (l : list A) : head (rev l) = last l.
Proof.
  rewrite <- (rev_involutive l) at 2. symmetry. apply JsTheory.last_rev_head.
Qed.

(** A text without white space at its two ends is its own trim. *)
Lemma trim_fixed s :
  (∀ c, head (String.list_ascii_of_string s) = Some c → Js.isWhiteSpace c = false) →
  (∀ c, last (String.list_ascii_of_string s) = Some c → Js.isWhiteSpace c = false) →
  Js.trim s = s.
Proof.
  intros Hh Hl. unfold Js.trim, Js.trimEndL.
  rewrite (TokenTheory.trimStartL_fixed _ Hh).
  rewrite TokenTheory.trimStartL_fixed, rev_involutive.
  - apply String.string_of_list_ascii_of_string.
  - intros c. rewrite head_rev_last. apply Hl.
Qed.

Lemma trim_idempotent s : Js.trim (Js.trim s) = Js.trim s.
Proof.
  destruct (JsTheory.trim_spec s) as (_ & _ & _ & _ & _ & Hh & Hl).
  by apply trim_fixed.
Qed.

Lemma collegeIdChar_not_white c : collegeIdChar c = true → Js.isWhiteSpace c = false.
Proof.
  destruct c as [[] [] [] [] [] [] [] []]; vm_compute; congruence.
Qed.

Lemma collegeIdFormat_trim s : collegeIdFormat s = true → Js.trim s = s.
Proof.
  unfold collegeIdFormat. intros [_ Hall]%andb_true_iff.
  rewrite forallb_forall in Hall.
  apply trim_fixed; intros c Hc; apply collegeIdChar_not_white, Hall.
  - destruct (String.list_ascii_of_string s); [done|]. injection Hc as ->. by left.
  - apply list_elem_of_In. by eapply last_Some_elem_of.
Qed.

Lemma length_substring n s : (String.length (String.substring 0 n s) ≤ n)%nat.
Proof.
  revert s. induction n as [|n IH]; intros s; destruct s; simpl; try lia.
  specialize (IH s). lia.
Qed.


Lemma findByCollegeId_Some id users u :
  findByCollegeId id users = Some u → u ∈ users ∧ collegeId u = id.
Proof.
  intros [Hin Hid]%find_some. split; [by apply list_elem_of_In|by apply String.eqb_eq].
Qed.

Lemma findById_Some id users u :
  findById id users = Some u → u ∈ users ∧ uid u = id.
Proof.
  intros [Hin Hid]%find_some. split; [by apply list_elem_of_In|by apply String.eqb_eq].
Qed.

Lemma login_ok_inv (authFn : string → string → option bool)
    (signToken : User → string) (usernameField passwordField : option string)
    (newId : string) (findOk createOk : bool) (users users' : list User)
    (token : string) (profile : User) :
  login authFn signToken usernameField passwordField newId findOk createOk users
    = (LoginOk token profile, users') →
  ∃ rawId pwd,
    usernameField = Some rawId ∧ passwordField = Some pwd ∧
    collegeIdFormat (Js.trim rawId) = true ∧ (4 ≤ String.length pwd)%nat ∧
    authFn (Js.trim rawId) pwd = Some true ∧
    collegeId profile = Js.trim rawId ∧ token = signToken profile ∧
    profile ∈ users' ∧
    (users' = users ∨
     (findByCollegeId (Js.trim rawId) users = None ∧ uid profile = newId ∧
      users' = users ++ [profile])).
Proof.
  unfold login.
  destruct usernameField as [rawId|], passwordField as [pwd|]; simpl;
    rewrite ?orb_true_r; try done.
  destruct (String.eqb rawId ""), (String.eqb pwd ""); simpl; try done.
  destruct (collegeIdFormat (Js.trim rawId)) eqn:Hfmt; simpl; [|done].
  destruct (Nat.ltb_spec (String.length pwd) 4); [done|].
  destruct (authFn (Js.trim rawId) pwd) as [[]|] eqn:Hauth; try done.
  destruct findOk; simpl; [|done].
  destruct (findByCollegeId (Js.trim rawId) users) as [user|] eqn:Hfind.
  - intros [= <- <- <-]. apply findByCollegeId_Some in Hfind as [Hin Hid].
    exists rawId, pwd. naive_solver.
  - destruct (negb createOk || _); [done|]. intros [= <- <- <-].
    exists rawId, pwd. repeat split; try done.
    + apply elem_of_app. right. by apply list_elem_of_singleton.
    + by right.
Qed.

(** A successful login went through every check: both fields present, the
    trimmed college id in the accepted format, a password of at least four
    characters, and the ERP check accepting exactly that id and password;
    the token is signed for the returned profile, which carries that
    college id and is stored, either already or appended by this login. *)
Theorem login_success_means_verified (authFn : string → string → option bool)
    (signToken : User → string) (usernameField passwordField : option string)
    (newId : string) (findOk createOk : bool) (users users' : list User)
    (token : string) (profile : User) :
  login authFn signToken usernameField passwordField newId findOk createOk users
    = (LoginOk token profile, users') →
  ∃ rawId pwd,
    usernameField = Some rawId ∧ passwordField = Some pwd ∧
    collegeIdFormat (Js.trim rawId) = true ∧ (4 ≤ String.length pwd)%nat ∧
    authFn (Js.trim rawId) pwd = Some true ∧
    collegeId profile = Js.trim rawId ∧ token = signToken profile ∧
    profile ∈ users' ∧
    (users' = users ∨
     (findByCollegeId (Js.trim rawId) users = None ∧ uid profile = newId ∧
      users' = users ++ [profile])).
Proof. apply login_ok_inv. Qed.

Lemma login_success_means_verified_witness :
  ∃ rawId pwd, Some " cs2021@psit " = Some rawId ∧ Some "secret" = Some pwd ∧
    collegeIdFormat (Js.trim rawId) = true ∧ (4 ≤ String.length pwd)%nat.
Proof.
  destruct (login_success_means_verified (λ _ _, Some true) uid
              (Some " cs2021@psit ") (Some "secret") "64b7f0c2a1d3e4f5a6b7c8f1"
              true true [] _ _ _ eq_refl)
    as (rawId & pwd & Hu & Hp & Hfmt & Hlen & _).
  by exists rawId, pwd.
Defined.

Lemma NoDup_map_elem_eq {A B} (f : A → B) (l : list A) x y :
  NoDup (map f l) → x ∈ l → y ∈ l → f x = f y → x = y.
Proof.
  induction l as [|a l IH]; simpl; intros Hnd Hx Hy Hf; [by apply elem_of_nil in Hx|].
  apply NoDup_cons in Hnd as [Ha Hnd].
  apply elem_of_cons in Hx as [->|Hx]; apply elem_of_cons in Hy as [->|Hy]; try done.
  - exfalso. apply Ha. rewrite Hf. apply list_elem_of_fmap. eauto.
  - exfalso. apply Ha. rewrite <- Hf. apply list_elem_of_fmap. eauto.
  - by apply IH.
Qed.



(** A college id of more than 30 characters passes the format check (up
    to 50 are allowed) but cannot get a profile: the new user's [username]
    is the college id, which the schema limits to 30 characters, so the
    first login fails with status 500 and stores nothing. *)
Theorem login_long_collegeId_rejected (authFn : string → string → option bool)
    (signToken : User → string) (rawId pwd newId : string) (createOk : bool)
    (users : list User) :
  collegeIdFormat (Js.trim rawId) = true →
  (30 < String.length (Js.trim rawId))%nat →
  (4 ≤ String.length pwd)%nat →
  authFn (Js.trim rawId) pwd = Some true →
  findByCollegeId (Js.trim rawId) users = None →
  login authFn signToken (Some rawId) (Some pwd) newId true createOk users
  = (LoginError 500 "Server error during login", users).
Proof.
  intros Hfmt Hlong Hlen Hauth Hfind. unfold login. simpl.
  assert (Hraw : String.eqb rawId "" = false).
  { destruct rawId; [|done]. by vm_compute in Hfmt. }
  assert (Hpwd : String.eqb pwd "" = false) by (destruct pwd; [simpl in Hlen; lia|done]).
  rewrite Hraw, Hpwd, Hfmt. simpl.
  destruct (Nat.ltb_spec (String.length pwd) 4); [lia|]. rewrite Hauth, Hfind.
  unfold schemaValid. simpl. rewrite (collegeIdFormat_trim _ Hfmt).
  destruct (Nat.leb_spec (String.length (Js.trim rawId)) 30); [lia|].
  by rewrite !andb_false_r, orb_true_r.
Qed.

Lemma login_long_collegeId_rejected_witness :
  login (λ _ _, Some true) uid (Some "abcdefghijklmnopqrstuvwxyz01234") (Some "secret")
    "64b7f0c2a1d3e4f5a6b7c8f1" true true []
  = (LoginError 500 "Server error during login", []).
Proof.
  apply (login_long_collegeId_rejected (λ _ _, Some true) uid
           "abcdefghijklmnopqrstuvwxyz01234" "secret" "64b7f0c2a1d3e4f5a6b7c8f1"
           true []); try reflexivity.
  - vm_compute. lia.
  - vm_compute. lia.
Defined.

End AccountsTheory.

(** ** Accounts: what a saved profile looks like *)

Module ProfileTheory.
Import Accounts AccountsTheory.

Lemma saveUser_wf u old users :
  users_wf users → old ∈ users → uid u = uid old → collegeId u = collegeId old →
  schemaValid u = true → Js.trim (username u) = username u →
  users_wf (saveUser u users) ∧
  u ∈ saveUser u users ∧
  (∀ v, v ∈ saveUser u users → v = u ∨ (v ∈ users ∧ uid v ≠ uid u)) ∧
  (∀ v, v ∈ users → uid v ≠ uid u → v ∈ saveUser u users).
Proof.
  intros (Hall & Hcids & Huids) Hold Huid Hcid Hvalid Htrim. unfold saveUser.
  assert (Hsame : ∀ v, v ∈ users → String.eqb (uid v) (uid u) = true → v = old).
  { intros v Hv Heq%String.eqb_eq.
    apply (NoDup_map_elem_eq uid users); try done. congruence. }
  split; [split; [|split]|split; [|split]].
  - apply Forall_fmap. eapply Forall_impl; [exact Hall|].
    intros v Hv. simpl. by destruct (String.eqb (uid v) (uid u)).
  - replace (map collegeId (map (λ v, if String.eqb (uid v) (uid u) then u else v) users))
      with (map collegeId users); [done|].
    rewrite map_map. apply map_ext_in. intros v Hv%list_elem_of_In.
    destruct (String.eqb (uid v) (uid u)) eqn:E; [|done].
    rewrite (Hsame v Hv E). done.
  - replace (map uid (map (λ v, if String.eqb (uid v) (uid u) then u else v) users))
      with (map uid users); [done|].
    rewrite map_map. apply map_ext_in. intros v Hv.
    destruct (String.eqb_spec (uid v) (uid u)); done.
  - apply list_elem_of_fmap. exists old. split; [|done].
    by rewrite Huid, String.eqb_refl.
  - intros v [v0 [-> Hv0]]%list_elem_of_fmap.
    destruct (String.eqb_spec (uid v0) (uid u)); [by left|by right].
  - intros v Hv Hne. apply list_elem_of_fmap. exists v. split; [|done].
    by destruct (String.eqb_spec (uid v) (uid u)).
Qed.

(** On a well-formed user store [POST /profile/update] leaves the store
    well formed.  A successful update returns the caller's stored profile
    with the trimmed new name (when one with something left after trimming
    was sent, of 2 to 30 characters), the first 500 characters of the new
    bio (when one was sent), and everything else as it was; other users
    are not touched.  An error stores nothing, and when the database calls
    resolve and the profile exists the only possible error is the 400 for
    the name's length. *)
Theorem profileUpdate_keeps_schema (me : string) (newUsername bioField : option string)
    (saveOk : bool) (users : list User) :
  users_wf users →
  let r := profileUpdate me newUsername bioField true saveOk users in
  users_wf (snd r) ∧
  (∀ st profile, fst r = ProfileOk st profile →
     ∃ old, findById me users = Some old ∧
       uid profile = me ∧ collegeId profile = collegeId old ∧
       posts profile = posts old ∧
       username profile =
         (match newUsername with
          | Some n => if String.eqb (Js.trim n) "" then username old else Js.trim n
          | None => username old
          end) ∧
       (2 ≤ String.length (username profile) ≤ 30)%nat ∧
       bio profile =
         (match bioField with
          | Some b => String.substring 0 500 b
          | None => bio old
          end) ∧
       (String.length (bio profile) ≤ 500)%nat ∧
       profile ∈ snd r ∧
       (∀ v, v ∈ users → uid v ≠ me → v ∈ snd r) ∧
       (∀ v, v ∈ snd r → v = profile ∨ v ∈ users)) ∧
  (∀ st msg, fst r = ProfileError st msg → snd r = users) ∧
  (saveOk = true → is_Some (findById me users) →
     ∀ st msg, fst r = ProfileError st msg →
       st = 400%nat ∧ msg = "Username must be 2-30 characters").
Proof.
  intros Hwf r. subst r. unfold profileUpdate. simpl.
  destruct (findById me users) as [old|] eqn:Hfind;
    [|split; [done|split; [done|split; [done|by intros _ [? ?]]]]].
  apply findById_Some in Hfind as [Hold Huid].
  destruct Hwf as (Hall & Hcids & Huids).
  assert (Holdok : schemaValid old = true ∧ Js.trim (username old) = username old).
  { rewrite Forall_forall in Hall. by apply Hall. }
  destruct Holdok as [Hvalid Htrim].
  unfold schemaValid in Hvalid.
  apply andb_true_iff in Hvalid as [Hvalid Hposts].
  apply andb_true_iff in Hvalid as [Hvalid Hbio].
  apply andb_true_iff in Hvalid as [Hvalid Hmax].
  apply andb_true_iff in Hvalid as [Hcid Hmin].
  set (newBio := match bioField with
                 | Some b => String.substring 0 500 b
                 | None => bio old
                 end).
  assert (HnewBio : (String.length newBio <=? 500)%nat = true).
  { subst newBio. destruct bioField; [|done]. apply Nat.leb_le, length_substring. }
  set (name := match newUsername with
               | Some n => if String.eqb (Js.trim n) "" then username old else Js.trim n
               | None => username old
               end).
  assert (Hname : Js.trim name = name).
  { subst name. destruct newUsername as [n|]; [|done].
    destruct (String.eqb (Js.trim n) ""); [done|apply trim_idempotent]. }
  set (user1 := {| uid := uid old; collegeId := collegeId old; username := name;
                   bio := newBio; profilePic := profilePic old;
                   coverPic := coverPic old; posts := posts old |}).
  assert (Hnorm : normalize user1 = user1).
  { unfold normalize. simpl. by rewrite Hname. }
  assert (Hgoal : (2 <=? String.length name)%nat
                  && (String.length name <=? 30)%nat = true →
    let r := if negb saveOk || negb (schemaValid (normalize user1))
             then (ProfileError 500 "Internal server error", users)
             else (ProfileOk 200 (normalize user1), saveUser (normalize user1) users) in
    users_wf (snd r) ∧
    (∀ st profile, fst r = ProfileOk st profile →
       uid profile = me ∧ collegeId profile = collegeId old ∧
       posts profile = posts old ∧ username profile = name ∧
       (2 ≤ String.length (username profile) ≤ 30)%nat ∧
       bio profile = newBio ∧ (String.length (bio profile) ≤ 500)%nat ∧
       profile ∈ snd r ∧ (∀ v, v ∈ users → uid v ≠ me → v ∈ snd r) ∧
       (∀ v, v ∈ snd r → v = profile ∨ v ∈ users)) ∧
    (∀ st msg, fst r = ProfileError st msg → snd r = users) ∧
    (saveOk = true → ∀ st msg, fst r ≠ ProfileError st msg)).
  { intros okLen. rewrite Hnorm.
    apply andb_true_iff in okLen as [H2 H30].
    assert (Hv1 : schemaValid user1 = true).
    { unfold schemaValid. cbn [user1 collegeId username bio posts].
      by rewrite Hcid, H2, H30, HnewBio, Hposts. }
    rewrite Hv1. simpl. destruct saveOk; simpl; [|done].
    destruct (saveUser_wf user1 old users) as (Hwf' & Hin & Hsub & Hsup); try done.
    split; [done|]. split; [|done].
    intros st profile [= <- <-].
    apply Nat.leb_le in H2, H30, HnewBio.
    repeat split; try done.
    - intros v Hv Hne. apply Hsup; [done|]. simpl. congruence.
    - intros v Hv. destruct (Hsub v Hv) as [->|[? ?]]; [by left|by right]. }
  assert (Hfinish : (2 <=? String.length name)%nat
                    && (String.length name <=? 30)%nat = true →
    let r := if negb saveOk || negb (schemaValid (normalize user1))
             then (ProfileError 500 "Internal server error", users)
             else (ProfileOk 200 (normalize user1), saveUser (normalize user1) users) in
    users_wf (snd r) ∧
    (∀ st profile, fst r = ProfileOk st profile →
       ∃ old0, Some old = Some old0 ∧
         uid profile = me ∧ collegeId profile = collegeId old0 ∧
         posts profile = posts old0 ∧
         username profile =
           (match newUsername with
            | Some n => if String.eqb (Js.trim n) "" then username old0 else Js.trim n
            | None => username old0
            end) ∧
         (2 ≤ String.length (username profile) ≤ 30)%nat ∧
         bio profile =
           (match bioField with
            | Some b => String.substring 0 500 b
            | None => bio old0
            end) ∧
         (String.length (bio profile) ≤ 500)%nat ∧
         profile ∈ snd r ∧ (∀ v, v ∈ users → uid v ≠ me → v ∈ snd r) ∧
         (∀ v, v ∈ snd r → v = profile ∨ v ∈ users)) ∧
    (∀ st msg, fst r = ProfileError st msg → snd r = users) ∧
    (saveOk = true → is_Some (Some old) →
       ∀ st msg, fst r = ProfileError st msg →
         st = 400%nat ∧ msg = "Username must be 2-30 characters")).
  { intros okLen. destruct (Hgoal okLen) as (HA & HB & HC & HD).
    split; [exact HA|]. split; [|split; [exact HC|]].
    - intros st profile Hp. exists old. split; [done|]. exact (HB st profile Hp).
    - intros Hs _ st msg Hr. by destruct (HD Hs st msg). }
  clear Hgoal.
  pose proof Hfinish as Hkept. rewrite Hnorm in Hkept.
  destruct newUsername as [n|]; simpl.
  - destruct (String.eqb_spec (Js.trim n) "") as [He|He]; simpl.
    + assert (okLen : (2 <=? String.length name)%nat
                      && (String.length name <=? 30)%nat = true)
        by (subst name; by rewrite Hmin, Hmax).
      exact (Hkept okLen).
    + assert (Hn : name = Js.trim n).
      { subst name. by destruct (String.eqb_spec (Js.trim n) ""). }
      destruct (Nat.ltb_spec (String.length (Js.trim n)) 2) as [Hlt|Hge]; simpl.
      { split; [done|]. split; [done|]. split; [done|]. by intros _ _ st msg [= <- <-]. }
      destruct (Nat.ltb_spec 30 (String.length (Js.trim n))) as [Hgt|Hle]; simpl.
      { split; [done|]. split; [done|]. split; [done|]. by intros _ _ st msg [= <- <-]. }
      assert (okLen : (2 <=? String.length name)%nat
                      && (String.length name <=? 30)%nat = true).
      { rewrite Hn. apply andb_true_iff. split; apply Nat.leb_le; lia. }
      exact (Hfinish okLen).
  - assert (okLen : (2 <=? String.length name)%nat
                    && (String.length name <=? 30)%nat = true)
      by (subst name; by rewrite Hmin, Hmax).
    exact (Hkept okLen).
Qed.

Lemma profileUpdate_keeps_schema_witness :
  users_wf
    (snd (profileUpdate "64b7f0c2a1d3e4f5a6b7c8f1" (Some " Asha ") None true true
            [{| uid := "64b7f0c2a1d3e4f5a6b7c8f1"; collegeId := "cs2021";
                username := "cs2021"; bio := ""; profilePic := ""; coverPic := "";
                posts := [] |}])).
Proof.
  assert (Hwf : users_wf
            [{| uid := "64b7f0c2a1d3e4f5a6b7c8f1"; collegeId := "cs2021";
                username := "cs2021"; bio := ""; profilePic := ""; coverPic := "";
                posts := [] |}]).
  { split; [|split]; repeat constructor; by intros ?%elem_of_nil. }
  destruct (profileUpdate_keeps_schema "64b7f0c2a1d3e4f5a6b7c8f1" (Some " Asha ") None
              true _ Hwf) as (Hwf' & _).
  exact Hwf'.
Defined.

Lemma postsCap_min setting : (50 ≤ postsCap setting)%Z.
Proof. unfold postsCap. lia. Qed.

(** [POST /posts] on a well-formed store, for an existing profile and
    resolving database calls: the cap is at least 50 whatever the setting;
    the answer is 201 with the user's posts, which are the new post
    followed by the old ones, cut to the cap, so never more than the cap;
    the new post comes first, carries the
    trimmed caption cut to 1000 characters and the time of the request,
    and is the one announced by [post:created] in the user's room; the
    store stays well formed. *)
Theorem createPost_caps_posts (setting : option Z) (me : string)
    (captionField mediaUri : option string) (now : Z) (users : list User) (user : User) :
  users_wf users → findById me users = Some user →
  let cap := postsCap setting in
  let post := {| caption := String.substring 0 1000 (Js.trim (default "" captionField));
                 image := if Js.truthy mediaUri then mediaUri else None;
                 createdAt := now |} in
  let kept := take (Z.to_nat cap) (post :: posts user) in
  ∃ users',
    createPost cap me captionField mediaUri now true true users
    = (PostsOk 201 kept, users', Some (me, Some post)) ∧
    head kept = Some post ∧
    length kept = Nat.min (S (length (posts user))) (Z.to_nat cap) ∧
    (String.length (caption post) ≤ 1000)%nat ∧
    users_wf users' ∧
    (∃ saved, saved ∈ users' ∧ uid saved = me ∧ posts saved = kept ∧
              collegeId saved = collegeId user ∧ username saved = username user) ∧
    (∀ v, v ∈ users → uid v ≠ me → v ∈ users').
Proof.
  intros Hwf Hfind cap post kept.
  pose proof (postsCap_min setting) as Hcap. fold cap in Hcap.
  unfold createPost. rewrite Hfind. cbv zeta. cbn [negb].
  apply findById_Some in Hfind as [Hold Huid].
  destruct Hwf as (Hall & Hcids & Huids).
  assert (Holdok : schemaValid user = true ∧ Js.trim (username user) = username user).
  { rewrite Forall_forall in Hall. by apply Hall. }
  destruct Holdok as [Hvalid Htrim].
  assert (Hcaption : (if Js.truthy captionField then default "" captionField else "")
                     = default "" captionField).
  { destruct captionField as [c|]; [|done]. simpl.
    by destruct (String.eqb_spec c "") as [->|]. }
  rewrite Hcaption. fold post.
  assert (Hkept : (if (cap <? Z.of_nat (length (post :: posts user)))%Z
                   then take (Z.to_nat cap) (post :: posts user)
                   else post :: posts user) = kept).
  { subst kept. destruct (Z.ltb_spec cap (Z.of_nat (length (post :: posts user))));
      [done|]. rewrite take_ge; [done|]. lia. }
  rewrite Hkept.
  set (user1 := {| uid := uid user; collegeId := collegeId user;
                   username := username user; bio := bio user;
                   profilePic := profilePic user; coverPic := coverPic user;
                   posts := kept |}).
  fold user1.
  assert (Hlen : (String.length (caption post) ≤ 1000)%nat) by apply length_substring.
  assert (Hv1 : schemaValid user1 = true).
  { unfold schemaValid in *. cbn [user1 collegeId username bio posts].
    apply andb_true_iff in Hvalid as [Hvalid Hposts]. rewrite Hvalid. cbn [andb].
    apply forallb_forall. intros p Hp%list_elem_of_In.
    apply HistoryTheory.elem_of_take_1 in Hp. apply elem_of_cons in Hp as [->|Hp].
    - by apply Nat.leb_le.
    - rewrite forallb_forall in Hposts. by apply Hposts, list_elem_of_In. }
  rewrite Hv1. simpl.
  destruct (saveUser_wf user1 user users) as (Hwf' & Hin & Hsub & Hsup); try done.
  assert (Hhead : head kept = Some post).
  { subst kept. destruct (Z.to_nat cap) eqn:E; [lia|done]. }
  rewrite Hhead. eexists. split; [done|]. split; [done|].
  split.
  { subst kept. rewrite length_take. destruct (Z.to_nat cap); simpl; lia. }
  split; [done|]. split; [done|]. split.
  - exists user1. by repeat split.
  - intros v Hv Hne. apply Hsup; [done|]. simpl. congruence.
Qed.

Lemma createPost_caps_posts_witness :
  ∃ users',
    createPost (postsCap (Some 60%Z)) "64b7f0c2a1d3e4f5a6b7c8f1" (Some " hi ") None 1000
      true true
      [{| uid := "64b7f0c2a1d3e4f5a6b7c8f1"; collegeId := "cs2021";
          username := "cs2021"; bio := ""; profilePic := ""; coverPic := "";
          posts := [] |}]
    = (PostsOk 201
         (take (Z.to_nat (postsCap (Some 60%Z)))
            [{| caption := String.substring 0 1000 (Js.trim (default "" (Some " hi ")));
                image := if Js.truthy None then None else None; createdAt := 1000 |}]),
       users',
       Some ("64b7f0c2a1d3e4f5a6b7c8f1",
             Some {| caption := String.substring 0 1000 (Js.trim (default "" (Some " hi ")));
                     image := if Js.truthy None then None else None;
                     createdAt := 1000 |})).
Proof.
  assert (Hwf : users_wf
            [{| uid := "64b7f0c2a1d3e4f5a6b7c8f1"; collegeId := "cs2021";
                username := "cs2021"; bio := ""; profilePic := ""; coverPic := "";
                posts := [] |}]).
  { split; [|split]; repeat constructor; by intros ?%elem_of_nil. }
  destruct (createPost_caps_posts (Some 60%Z) "64b7f0c2a1d3e4f5a6b7c8f1" (Some " hi ")
              None 1000 _ _ Hwf eq_refl) as (users' & Hr & _).
  by exists users'.
Defined.

End ProfileTheory.

(** ** The chat list after a message or an ensure *)

Module ChatListTheory.
Import Messaging Inbox.



(** The chat [POST /chats/ensure] answers with, found or created, is stored
    and has both users among its participants, so it is in the chat list
    of each of them. *)
Theorem ensured_chat_is_listed (me : string) (withUserId : option string)
    (newId : string) (now : Z) (findOk createOk : bool) (w : world)
    (st : nat) (c : Chat) :
  fst (chatsEnsure me withUserId newId now findOk createOk (store w)) = Success st c →
  let d' := store (exec w (snd (chatsEnsure me withUserId newId now findOk createOk
                                  (store w)))) in
  ∃ other, withUserId = Some other ∧ other ≠ "" ∧
    c ∈ chats d' ∧ me ∈ participants c ∧ other ∈ participants c ∧
    ∀ viewer lastOk countOk l, viewer = me ∨ viewer = other →
      getChats viewer true lastOk countOk d' = Success 200 l → c ∈ map s_chat l.
Proof.
  unfold chatsEnsure.
  destruct withUserId as [other|]; simpl; [|done].
  destruct (String.eqb_spec other ""); simpl; [done|].
  destruct findOk; simpl; [|done].
  assert (Hlisted : ∀ d', c ∈ chats d' → me ∈ participants c → other ∈ participants c →
    ∀ viewer lastOk countOk l, viewer = me ∨ viewer = other →
      getChats viewer true lastOk countOk d' = Success 200 l → c ∈ map s_chat l).
  { intros d' Hc Hme Hother viewer lastOk countOk l Hv Hl.
    apply (InboxTheory.getChats_mem _ _ _ _ _ _ _ c Hl).
    split; [done|]. by destruct Hv as [->| ->]. }
  destruct (findOneChat me other (chats (store w))) as [chat|] eqn:Hf.
  - intros [= <- <-]. simpl.
    apply ChatTheory.findOneChat_Some in Hf as (i & Hi & [Hme Hother] & _).
    exists other. split; [done|]. split; [done|].
    assert (Hin : chat ∈ chats (store w)) by by eapply list_elem_of_lookup_2.
    split; [done|]. split; [done|]. split; [done|]. by apply Hlisted.
  - destruct createOk; simpl; [|done]. intros [= <- <-]. simpl.
    exists other. split; [done|]. split; [done|].
    assert (Hin : {| cid := newId; participants := [me; other]; lastMessage := "";
                     updatedAt := now |}
                  ∈ chats (store w) ++
                    [{| cid := newId; participants := [me; other]; lastMessage := "";
                        updatedAt := now |}]).
    { apply elem_of_app. right. by apply list_elem_of_singleton. }
    split; [done|]. simpl.
    split; [by left|]. split; [right; by left|].
    apply (Hlisted {| messages := messages (store w);
                      chats := chats (store w) ++ _ |}); simpl; try done.
    + by left.
    + right. by left.
Qed.

Lemma ensured_chat_is_listed_witness :
  ∃ other, Some "64b7f0c2a1d3e4f5a6b7c8d2" = Some other ∧ other ≠ "" ∧
    oneChat ∈ chats (store (exec emptyWorld
       (snd (chatsEnsure "64b7f0c2a1d3e4f5a6b7c8d3" (Some "64b7f0c2a1d3e4f5a6b7c8d2")
               "64b7f0c2a1d3e4f5a6b7c8d1" 500 true true (store emptyWorld))))).
Proof.
  destruct (ensured_chat_is_listed "64b7f0c2a1d3e4f5a6b7c8d3"
              (Some "64b7f0c2a1d3e4f5a6b7c8d2") "64b7f0c2a1d3e4f5a6b7c8d1" 500 true true
              emptyWorld 200%nat oneChat eq_refl)
    as (other & Ho & Hne & Hin & _).
  by exists other.
Defined.

End ChatListTheory.
